(** * static/js/main.js: display and validation helpers

    A shallow embedding of the five top-level definitions of
    [static/js/main.js] and the properties stated about them.

    - JavaScript Numbers are IEEE-754 binary64 values.  Module [JSNumber]
      models the part of binary64 the script can reach: NaN, the infinities
      and the finite values [m * 2^e], with correctly rounded (nearest, ties
      to even) multiplication and division, [Math.floor], [Math.round] and
      the Number-to-String conversion of ECMA-262 (shortest digit string
      that reads back as the same Number).  Signed zero and the exponent
      range (overflow, subnormals) are left out: every magnitude met below
      lies between 2^-60 and 2^1000.
    - [Math.log], [Math.pow], the [Date] parser and [toLocaleString] are
      "implementation-approximated" or "implementation-defined" in
      ECMA-262.  They are fields of a [Host] record; what a theorem needs
      of them is a hypothesis of that theorem.
    - Objects live in a store ([gmap] from locations to objects); the page
      is a tree of nodes with identities, a clock and a timer queue.  The
      parser that turns markup into nodes and the times at which due
      callbacks are run belong to the browser and to jQuery: they are
      fields of a [Browser] record of the page. *)

From Stdlib Require Import ZArith Lia Bool Ascii String List.
From stdpp Require Import base option list strings gmap.

Local Open Scope Z_scope.

(** ** Binary64 numbers *)

Module JSNumber.

Inductive Number : Type :=
| NaN
| Inf (negative : bool)
| Fin (m e : Z).   (* the value m * 2^e; normal form: m = 0 = e, or 2^52 <= |m| < 2^53 *)

Definition Number_eqb (a b : Number) : bool :=
  match a, b with
  | Fin m1 e1, Fin m2 e2 => (m1 =? m2) && (e1 =? e2)
  | Inf s1, Inf s2 => Bool.eqb s1 s2
  | _, _ => false          (* NaN is equal to nothing *)
  end.

Definition Num_neg (a : Number) : Number :=
  match a with
  | NaN => NaN
  | Inf s => Inf (negb s)
  | Fin m e => Fin (- m) e
  end.

(** The binary64 value nearest to the fraction [N / D], for [0 < N] and
    [0 < D]; a tie goes to the even significand.  [t] is the scaling that
    brings the quotient into [2^52, 2^53). *)
Definition round_pos (N D : Z) : Number :=
  let t0 := 52 + Z.log2 D - Z.log2 N in
  let below := N * 2 ^ Z.max t0 0 <? 2 ^ 52 * (D * 2 ^ Z.max (- t0) 0) in
  let t := if below then t0 + 1 else t0 in
  let num := N * 2 ^ Z.max t 0 in
  let den := D * 2 ^ Z.max (- t) 0 in
  let f := num / den in
  let r2 := 2 * (num mod den) in
  let m := if r2 <? den then f
           else if den <? r2 then f + 1
           else if Z.even f then f else f + 1 in
  if m =? 2 ^ 53 then Fin (2 ^ 52) (1 - t) else Fin m (- t).

(** The same for any [N], with [0 < D]. *)
Definition round64 (N D : Z) : Number :=
  match N with
  | 0 => Fin 0 0
  | Zpos _ => round_pos N D
  | Zneg _ => Num_neg (round_pos (- N) D)
  end.

(** The Number denoted by an integer literal or integer-valued field. *)
Definition of_Z (n : Z) : Number := round64 n 1.

Definition is_neg (m : Z) : bool := m <? 0.

(** [a * b] *)
Definition Num_mul (a b : Number) : Number :=
  match a, b with
  | NaN, _ | _, NaN => NaN
  | Inf s, Inf s' => Inf (xorb s s')
  | Inf s, Fin m _ | Fin m _, Inf s =>
      if m =? 0 then NaN else Inf (xorb s (is_neg m))
  | Fin m1 e1, Fin m2 e2 =>
      let e := e1 + e2 in
      round64 (m1 * m2 * 2 ^ Z.max e 0) (2 ^ Z.max (- e) 0)
  end.

(** [a / b] *)
Definition Num_div (a b : Number) : Number :=
  match a, b with
  | NaN, _ | _, NaN => NaN
  | Inf _, Inf _ => NaN
  | Inf s, Fin m _ => Inf (xorb s (is_neg m))
  | Fin _ _, Inf _ => Fin 0 0
  | Fin m1 e1, Fin m2 e2 =>
      if m2 =? 0 then (if m1 =? 0 then NaN else Inf (is_neg m1))
      else
        let d := e1 - e2 in
        round64 (Z.sgn m2 * m1 * 2 ^ Z.max d 0) (Z.abs m2 * 2 ^ Z.max (- d) 0)
  end.

(** [Math.floor] *)
Definition Math_floor (a : Number) : Number :=
  match a with
  | Fin m e => if 0 <=? e then a else of_Z (m / 2 ^ (- e))
  | _ => a
  end.

(** [Math.round]: the nearest integer, a tie going to the one closer to
    +Infinity, that is [floor (x + 1/2)] computed exactly. *)
Definition Math_round (a : Number) : Number :=
  match a with
  | Fin m e => if 0 <=? e then a else of_Z ((2 * m + 2 ^ (- e)) / 2 ^ (1 - e))
  | _ => a
  end.

(** The integer a Number holds, when it holds one. *)
Definition to_integer (a : Number) : option Z :=
  match a with
  | Fin m e =>
      if 0 <=? e then Some (m * 2 ^ e)
      else if m mod 2 ^ (- e) =? 0 then Some (m / 2 ^ (- e)) else None
  | _ => None
  end.

(** *** Number::toString (radix 10) *)

Definition digit_char (d : Z) : ascii :=
  ascii_of_nat (48 + Z.to_nat d).

(** The [k] low decimal digits of [s], most significant first. *)
Fixpoint digits (k : nat) (s : Z) (acc : string) : string :=
  match k with
  | O => acc
  | S k' => digits k' (s / 10) (String (digit_char (s mod 10)) acc)
  end.

Fixpoint zeros (n : nat) : string :=
  match n with
  | O => EmptyString
  | S n' => String "0"%char (zeros n')
  end.

(** Number of decimal digits of [s > 0]. *)
Fixpoint ndigits (fuel : nat) (s : Z) : nat :=
  match fuel with
  | O => O
  | S f => if s <? 10 then 1%nat else S (ndigits f (s / 10))
  end.

Definition decimal (s : Z) : string :=
  if s <=? 0 then "0"%string
  else digits (ndigits (Z.to_nat (Z.log2 s) + 1) s) s EmptyString.

(** [s * 10^j] as a Number (the value a decimal literal denotes). *)
Definition of_decimal (s j : Z) : Number :=
  round64 (s * 10 ^ Z.max j 0) (10 ^ Z.max (- j) 0).

(** [m * 2^e] against [s * 10^j]. *)
Definition cmp_decimal (m e s j : Z) : comparison :=
  m * 2 ^ Z.max e 0 * 10 ^ Z.max (- j) 0 ?= s * 10 ^ Z.max j 0 * 2 ^ Z.max (- e) 0.

(** The least [n] with [m * 2^e < 10^n], searched upwards from [n]. *)
Fixpoint dec_exponent (fuel : nat) (m e n : Z) : Z :=
  match fuel with
  | O => n
  | S f =>
      match cmp_decimal m e 1 n with
      | Lt => n
      | _ => dec_exponent f m e (n + 1)
      end
  end.

(** [floor (m * 2^e * 10^j)] *)
Definition scaled_floor (m e j : Z) : Z :=
  (m * 2 ^ Z.max e 0 * 10 ^ Z.max j 0) / (2 ^ Z.max (- e) 0 * 10 ^ Z.max (- j) 0).

(** The triple [(n, k, s)] of Number::toString for the positive finite
    [Fin m e]: [k] as small as possible with [s * 10^(n-k)] reading back as
    the same Number, and of two such [s] the one closer to the value. *)
Fixpoint shortest (fuel : nat) (m e n : Z) (k : Z) : Z * Z * Z :=
  let lo := scaled_floor m e (k - n) in
  match fuel with
  | O => (n, k, lo)
  | S f =>
      let hi := lo + 1 in
      let ok_lo := (10 ^ (k - 1) <=? lo) && Number_eqb (of_decimal lo (n - k)) (Fin m e) in
      let ok_hi := Number_eqb (of_decimal hi (n - k)) (Fin m e) in
      let pick_hi := if hi =? 10 ^ k then (n + 1, k, 10 ^ (k - 1)) else (n, k, hi) in
      match ok_lo, ok_hi with
      | true, false => (n, k, lo)
      | false, true => pick_hi
      | true, true =>
          (* 2x - lo - hi against 0, x the value *)
          match cmp_decimal (2 * m) e (lo + hi) (n - k) with
          | Lt => (n, k, lo)
          | Gt => pick_hi
          | Eq => if Z.even lo then (n, k, lo) else pick_hi
          end
      | false, false => shortest f m e n (k + 1)
      end
  end.

(** The decimal exponent [n]: 1233/4096 is just below log10 2, so the
    search starts below the answer. *)
Definition decimal_exponent (m e : Z) : Z :=
  dec_exponent 8 m e ((Z.log2 m + e) * 1233 / 4096 - 1).

Definition shortest_digits (m e : Z) : Z * Z * Z :=
  shortest 17 m e (decimal_exponent m e) 1.

(** The four layouts of Number::toString for the digits [s] ([k] of them)
    and the decimal exponent [n]. *)
Definition layout (n k s : Z) : string :=
  let ds := digits (Z.to_nat k) s EmptyString in
  if (k <=? n) && (n <=? 21) then
    ds +:+ zeros (Z.to_nat (n - k))
  else if (0 <? n) && (n <=? 21) then
    substring 0 (Z.to_nat n) ds +:+ "." +:+ substring (Z.to_nat n) (Z.to_nat (k - n)) ds
  else if (-6 <? n) && (n <=? 0) then
    "0." +:+ zeros (Z.to_nat (- n)) +:+ ds
  else
    let ex := (if 0 <? n - 1 then "+" else "-") +:+ decimal (Z.abs (n - 1)) in
    if k =? 1 then ds +:+ "e" +:+ ex
    else substring 0 1 ds +:+ "." +:+ substring 1 (Z.to_nat (k - 1)) ds +:+ "e" +:+ ex.

Definition toString_pos (m e : Z) : string :=
  let '(n, k, s) := shortest_digits m e in layout n k s.

Definition toString (a : Number) : string :=
  match a with
  | NaN => "NaN"
  | Inf false => "Infinity"
  | Inf true => "-Infinity"
  | Fin 0 _ => "0"
  | Fin (Zpos p) e => toString_pos (Zpos p) e
  | Fin (Zneg p) e => "-" +:+ toString_pos (Zpos p) e
  end.

End JSNumber.

Import JSNumber.

(** ** The host environment *)

(** What ECMA-262 leaves to the implementation.  A time value is a number
    of milliseconds; [None] is the NaN time value of an invalid Date. *)
Record Host : Type := {
  Math_log : Number -> Number;
  Math_pow : Number -> Number -> Number;
  Date_parse : string -> option Z;
  Date_toLocaleString : option Z -> string
}.

(** Outcome of a call: a value, or an exception thrown to the caller. *)
Inductive completion (A : Type) : Type :=
| Normal (a : A)
| Throw (error : string).
Arguments Normal {A} a.
Arguments Throw {A} error.

(** ** formatFileSize *)

(** [sizes[i]]: the element at an integer index inside the array,
    [undefined] otherwise. *)
Definition array_get (a : list string) (i : Number) : option string :=
  match to_integer i with
  | Some z => if 0 <=? z then a !! Z.to_nat z else None
  | None => None
  end.

(** String concatenation converts [undefined] to "undefined". *)
Definition string_of_element (v : option string) : string :=
  match v with
  | Some s => s
  | None => "undefined"
  end.

Definition sizes : list string := ["Bytes"; "KB"; "MB"; "GB"]%string.

Definition formatFileSize (h : Host) (bytes : Number) : string :=
  if Number_eqb bytes (of_Z 0) then "0 Bytes"
  else
    let k := of_Z 1024 in
    let i := Math_floor (Num_div (Math_log h bytes) (Math_log h k)) in
    toString
      (Num_div (Math_round (Num_mul (Num_div bytes (Math_pow h k i)) (of_Z 100)))
               (of_Z 100))
    +:+ " " +:+ string_of_element (array_get sizes i).

(** ** formatDate *)

(** The values of ECMAScript that are no objects. *)
Inductive value : Type :=
| VUndefined
| VNull
| VBoolean (b : bool)
| VNumber (n : Number)
| VString (s : string)
| VSymbol (description : string)
| VBigInt (z : Z).

(** [TimeClip]: the time value of a Number, which is NaN for a Number that
    is not finite or beyond 8.64e15 ms, and its integer part otherwise. *)
Definition TimeClip (t : Number) : option Z :=
  match t with
  | Fin m e =>
      let z := if 0 <=? e then m * 2 ^ e else Z.quot m (2 ^ (- e)) in
      if Z.abs z <=? 8640000000000000 then Some z else None
  | _ => None
  end.

(** [new Date(value)], the time value of the new Date: a string is parsed,
    which gives NaN when it is not recognised and never throws; any other
    value is converted by [ToNumber], which throws a TypeError for a Symbol
    and for a BigInt. *)
Definition Date_new (h : Host) (v : value) : completion (option Z) :=
  match v with
  | VString s => Normal (Date_parse h s)
  | VSymbol _ => Throw "TypeError"
  | VBigInt _ => Throw "TypeError"
  | VUndefined => Normal None
  | VNull => Normal (TimeClip (of_Z 0))
  | VBoolean b => Normal (TimeClip (of_Z (if b then 1 else 0)))
  | VNumber n => Normal (TimeClip n)
  end.

(** [date.toLocaleString()] is called without arguments on the Date just
    made: it renders the time value in the default locale, the NaN one
    included, and has no step that throws (ECMA-402 throws for a receiver
    that is no Date and for invalid locales or options). *)
Definition formatDate (h : Host) (dateString : value) : completion string :=
  match Date_new h dateString with
  | Normal date => Normal (Date_toLocaleString h date)
  | Throw e => Throw e
  end.

(** ** validateFile *)

Record File : Type := { type : string; size : Z }.

(** The returned object: [{ valid: false, message: ... }] or
    [{ valid: true }], where [message] is absent. *)
Record ValidationResult : Type := { valid : bool; message : option string }.

Definition Valid : ValidationResult := {| valid := true; message := None |}.
Definition Invalid (reason : string) : ValidationResult :=
  {| valid := false; message := Some reason |}.

Definition allowedTypes : list string :=
  ["image/jpeg"; "image/png"; "image/jpg"; "video/mp4"; "video/avi";
   "video/x-msvideo"; "video/quicktime"; "video/x-matroska"]%string.

Definition maxSize : Z := 500 * 1024 * 1024.

(** [Array.prototype.includes] on strings. *)
Definition includes (a : list string) (x : string) : bool :=
  existsb (String.eqb x) a.

Definition validateFile (file : File) : ValidationResult :=
  if negb (includes allowedTypes (type file)) then
    {| valid := false;
       message := Some "Invalid file type. Please upload an image or video."%string |}
  else if size file >? maxSize then
    {| valid := false; message := Some "File size exceeds 500MB limit."%string |}
  else
    {| valid := true; message := None |}.

(** *** The same function over a store of objects

    The argument is a reference; the fields are read from the store and the
    result is a freshly allocated object. *)

Module Store.

Definition loc := positive.

Inductive object : Type :=
| OFile (f : File)
| OResult (r : ValidationResult).

Abbreviation store := (gmap loc object).

(** State and failure: [None] is a property read on something that is not
    a file descriptor. *)
Definition JS (A : Type) : Type := store -> option (A * store).

Definition ret {A} (a : A) : JS A := fun σ => Some (a, σ).

Definition bind {A B} (c : JS A) (k : A -> JS B) : JS B :=
  fun σ => match c σ with
           | Some (a, σ') => k a σ'
           | None => None
           end.

Notation "'let*' x ':=' c 'in' k" := (bind c (fun x => k))
  (at level 10, x name, c at level 100, k at level 200).

Definition get_type (file : loc) : JS string :=
  fun σ => match σ !! file with
           | Some (OFile f) => Some (type f, σ)
           | _ => None
           end.

Definition get_size (file : loc) : JS Z :=
  fun σ => match σ !! file with
           | Some (OFile f) => Some (size f, σ)
           | _ => None
           end.

(** An object literal: a new object at a location not in use. *)
Definition alloc (o : object) : JS loc :=
  fun σ => let l := fresh (dom σ) in Some (l, <[l := o]> σ).

Definition validateFile (file : loc) : JS loc :=
  let* ty := get_type file in
  if negb (includes allowedTypes ty) then
    alloc (OResult {| valid := false;
                      message := Some "Invalid file type. Please upload an image or video."%string |})
  else
    let* sz := get_size file in
    if sz >? maxSize then
      alloc (OResult {| valid := false;
                        message := Some "File size exceeds 500MB limit."%string |})
    else
      alloc (OResult {| valid := true; message := None |}).

End Store.

(** ** showNotification

    The page: a tree of nodes with identities, a clock in milliseconds, the
    pending timers, and the browser under it, which parses markup and
    decides when a callback that is due is run. *)

Module Page.

#[warnings="-register-all"]
Inductive node : Type :=
| Text (s : string)
| Elem (id : nat) (tag : string) (classes : list string) (displayed : bool)
       (children : list node).

(** Markup as the parser returns it: nodes that are in no document yet. *)
#[warnings="-register-all"]
Inductive html : Type :=
| HText (s : string)
| HElem (tag : string) (classes : list string) (children : list html).

(** What the browser and jQuery do on their own: [parse_html] is the parser
    that jQuery gives a string of markup to, and [runs_at d] is the time at
    which a callback that is due at time [d] is run, which is [d] or later
    (a timer fires at or after its delay, an animation ends on the first
    tick at or after its duration). *)
Record Browser : Type := {
  parse_html : string -> list html;
  runs_at : Z -> Z
}.

Definition has_class (c : string) (classes : list string) : bool :=
  existsb (String.eqb c) classes.

(** [$('.c')]: the elements of class [c], in document order. *)
Fixpoint select_class (c : string) (n : node) : list nat :=
  match n with
  | Text _ => []
  | Elem id _ cs _ ch =>
      (if has_class c cs then [id] else []) ++ flat_map (select_class c) ch
  end.

(** [$('main .container')]: the elements of class [container] below a
    [main] element. *)
Fixpoint select_main_container (in_main : bool) (n : node) : list nat :=
  match n with
  | Text _ => []
  | Elem id tag cs _ ch =>
      (if in_main && has_class "container" cs then [id] else [])
      ++ flat_map (select_main_container (in_main || String.eqb tag "main")) ch
  end.

(** [.prepend(nodes)] on the element [target]. *)
Fixpoint prepend (target : nat) (nodes : list node) (n : node) : node :=
  match n with
  | Text s => Text s
  | Elem id tag cs d ch =>
      let ch' := map (prepend target nodes) ch in
      Elem id tag cs d (if Nat.eqb id target then nodes ++ ch' else ch')
  end.

(** [display: none] on the element [target]: what a finished fade-out
    leaves. *)
Fixpoint hide (target : nat) (n : node) : node :=
  match n with
  | Text s => Text s
  | Elem id tag cs d ch =>
      Elem id tag cs (if Nat.eqb id target then false else d) (map (hide target) ch)
  end.

Definition is_elem (id : nat) (n : node) : bool :=
  match n with
  | Text _ => false
  | Elem id' _ _ _ _ => Nat.eqb id id'
  end.

(** [.remove()] of the element [target]: it leaves the tree with all below
    it. *)
Fixpoint remove (target : nat) (n : node) : node :=
  match n with
  | Text s => Text s
  | Elem id tag cs d ch =>
      Elem id tag cs d
        (flat_map (fun c => if is_elem target c then [] else [remove target c]) ch)
  end.

(** The value of [this] in a function body. *)
Inductive this_value : Type :=
| ThisUndefined            (* a plain call in strict code *)
| ThisWindow               (* a plain call in sloppy code *)
| ThisNode (id : nat).     (* a call with an element as receiver *)

(** [$(this).remove()]: only an element can be removed from the tree. *)
Definition remove_this (this : this_value) (doc : node) : node :=
  match this with
  | ThisNode id => remove id doc
  | _ => doc
  end.

(** What a timer runs.  Both callbacks of [showNotification] are arrow
    functions: their [this] is the one of the call of [showNotification]
    that created them, whatever they are called on. *)
Inductive task : Type :=
| fadeOut_alerts (this : this_value)            (* the callback given to setTimeout *)
| fade_complete (el : nat) (this : this_value). (* the end of the fade of [el] *)

Record page : Type := {
  document : node;
  next_id : nat;
  clock : Z;
  timers : list (Z * task);
  browser : Browser
}.

(** The double quote. *)
Definition dq : string := String (ascii_of_nat 34) EmptyString.

(** The template literal: [type] and [message] are spliced into the markup
    as they are. *)
Definition alertHTML (message type : string) : string :=
  "
        <div class=" +:+ dq +:+ "alert alert-" +:+ type
  +:+ " alert-dismissible fade show" +:+ dq +:+ " role=" +:+ dq +:+ "alert" +:+ dq +:+ ">
            " +:+ message +:+ "
            <button type=" +:+ dq +:+ "button" +:+ dq +:+ " class=" +:+ dq +:+ "btn-close" +:+ dq
  +:+ " data-bs-dismiss=" +:+ dq +:+ "alert" +:+ dq +:+ "></button>
        </div>
    ".

(** The nodes inserted for parsed markup: every element gets an identity of
    its own, in document order from [next] on, and is displayed. *)
Fixpoint instantiate (next : nat) (h : html) {struct h} : node * nat :=
  match h with
  | HText s => (Text s, next)
  | HElem tag cs ch =>
      let fix children (next : nat) (l : list html) {struct l} : list node * nat :=
        match l with
        | [] => ([], next)
        | c :: l' =>
            let '(c', n1) := instantiate next c in
            let '(l'', n2) := children n1 l' in
            (c' :: l'', n2)
        end in
      let '(ch', next') := children (S next) ch in
      (Elem next tag cs true ch', next')
  end.

Fixpoint instantiate_all (next : nat) (l : list html) : list node * nat :=
  match l with
  | [] => ([], next)
  | c :: l' =>
      let '(c', n1) := instantiate next c in
      let '(l'', n2) := instantiate_all n1 l' in
      (c' :: l'', n2)
  end.

(** [.prepend(markup)] on a selection: every selected element receives its
    own copy of the nodes the markup was parsed to. *)
Fixpoint prepend_all (targets : list nat) (fragment : list html) (doc : node) (next : nat)
  : node * nat :=
  match targets with
  | [] => (doc, next)
  | t :: ts =>
      let '(nodes, next') := instantiate_all next fragment in
      prepend_all ts fragment (prepend t nodes doc) next'
  end.

(** [setTimeout(f, delay)] *)
Definition setTimeout (f : task) (delay : Z) (p : page) : page :=
  {| document := document p; next_id := next_id p; clock := clock p;
     timers := timers p ++ [(clock p + delay, f)]; browser := browser p |}.

(** The default duration of a jQuery animation: the completion of a fade is
    due 400 ms after its start.  (The fade of an element that is hidden
    already has nothing to animate and completes sooner, with the same
    effect on the document.) *)
Definition fade_duration : Z := 400.

(** [showNotification(message, type = 'info')], called with [this]. *)
Definition showNotification (this : this_value) (message : string) (type : option string)
  (p : page) : page :=
  let type := default "info"%string type in
  let '(doc, next) :=
    prepend_all (select_main_container false (document p))
                (parse_html (browser p) (alertHTML message type))
                (document p) (next_id p) in
  setTimeout (fadeOut_alerts this) 5000
    {| document := doc; next_id := next; clock := clock p; timers := timers p;
       browser := browser p |}.

(** Running one task at time [now]. *)
Definition run_task (now : Z) (t : task) (p : page) : page :=
  match t with
  | fadeOut_alerts this =>
      (* $('.alert').fadeOut(complete): every banner present starts to fade *)
      {| document := document p; next_id := next_id p; clock := now;
         timers := timers p
                   ++ map (fun el => (now + fade_duration, fade_complete el this))
                          (select_class "alert" (document p));
         browser := browser p |}
  | fade_complete el this =>
      (* the faded element is hidden, then the callback runs: $(this).remove() *)
      {| document := remove_this this (hide el (document p)); next_id := next_id p;
         clock := now; timers := timers p; browser := browser p |}
  end.

(** The first of the pending callbacks that the browser runs soonest, and
    the others: [when d] is the time at which one that is due at [d] is
    run. *)
Fixpoint take_earliest (when : Z -> Z) (ts : list (Z * task))
  : option (Z * task * list (Z * task)) :=
  match ts with
  | [] => None
  | (d, t) :: rest =>
      match take_earliest when rest with
      | Some (d', t', rest') =>
          if when d' <? when d then Some (d', t', (d, t) :: rest') else Some (d, t, rest)
      | None => Some (d, t, [])
      end
  end.

(** The event loop up to time [until]: pending callbacks are run in the
    order of the times at which the browser runs them, as long as that time
    is not after [until]; [fuel] bounds the number of callbacks run. *)
Fixpoint run_until (fuel : nat) (until : Z) (p : page) : page :=
  match fuel with
  | O => p
  | S fuel' =>
      match take_earliest (runs_at (browser p)) (timers p) with
      | Some (d, t, rest) =>
          if runs_at (browser p) d <=? until then
            run_until fuel' until
              (run_task (runs_at (browser p) d) t
                 {| document := document p; next_id := next_id p;
                    clock := clock p; timers := rest; browser := browser p |})
          else
            {| document := document p; next_id := next_id p; clock := until;
               timers := timers p; browser := browser p |}
      | None =>
          {| document := document p; next_id := next_id p; clock := until;
             timers := timers p; browser := browser p |}
      end
  end.

(** The element children of the element [target]. *)
Fixpoint element_children (target : nat) (n : node) : list nat :=
  match n with
  | Text _ => []
  | Elem id _ _ _ ch =>
      (if Nat.eqb id target
       then flat_map (fun c => match c with Elem i _ _ _ _ => [i] | Text _ => [] end) ch
       else [])
      ++ flat_map (element_children target) ch
  end.

(** Is the element [target] of the tree displayed? *)
Fixpoint displayed_at (target : nat) (n : node) : list bool :=
  match n with
  | Text _ => []
  | Elem id _ _ d ch =>
      (if Nat.eqb id target then [d] else []) ++ flat_map (displayed_at target) ch
  end.

End Page.

(** ** A reference host

    A host to run the functions on: [Math.log] computed in fixed point with
    120 fractional bits from the series of atanh, then rounded to binary64;
    [Math.pow] exact for integer exponents, then rounded; a [Date] that
    parses the epoch only; a browser with a small parser of markup. *)

Module Reference.

Definition scale : Z := 2 ^ 120.

(** [scale * atanh (z / scale)] by [n] terms of z + z^3/3 + z^5/5 + ... *)
Fixpoint atanh_series (n : nat) (z2 pw : Z) (d : Z) : Z :=
  match n with
  | O => 0
  | S n' => pw / d + atanh_series n' z2 (pw * z2 / scale) (d + 2)
  end.

Definition atanh_fix (z : Z) : Z := atanh_series 45 (z * z / scale) z 1.

(** [scale * ln 2], from ln 2 = 2 atanh (1/3). *)
Definition ln2_fix : Z := 2 * atanh_fix (scale / 3).

Definition log (x : Number) : Number :=
  match x with
  | NaN => NaN
  | Inf false => Inf false
  | Inf true => NaN
  | Fin 0 _ => Inf true
  | Fin (Zneg _) _ => NaN
  | Fin (Zpos p) e =>
      let m := Zpos p in
      (* x = y * 2^(e + 52) with y = m / 2^52, and ln y = 2 atanh ((y-1)/(y+1)) *)
      let z := (m - 2 ^ 52) * scale / (m + 2 ^ 52) in
      round64 ((e + 52) * ln2_fix + 2 * atanh_fix z) scale
  end.

Definition pow (base exponent : Number) : Number :=
  match base, to_integer exponent with
  | Fin m e, Some n =>
      if 0 <=? n then
        let ex := e * n in
        round64 (m ^ n * 2 ^ Z.max ex 0) (2 ^ Z.max (- ex) 0)
      else if m =? 0 then Inf false
      else
        let ex := e * n in   (* the exponent of 2 in 1 / base^(-n) *)
        round64 (Z.sgn m ^ (- n) * 2 ^ Z.max ex 0) (Z.abs m ^ (- n) * 2 ^ Z.max (- ex) 0)
  | _, _ => NaN
  end.

Definition parse (s : string) : option Z :=
  if String.eqb s "1970-01-01T00:00:00.000Z" then Some 0 else None.

Definition toLocaleString (t : option Z) : string :=
  match t with
  | None => "Invalid Date"
  | Some _ => "1/1/1970, 12:00:00 AM"
  end.

Definition host : Host :=
  {| Math_log := log; Math_pow := pow;
     Date_parse := parse; Date_toLocaleString := toLocaleString |}.

(** *** A reference browser

    A parser for markup made of text, start tags with attributes and end
    tags: names are lower-cased, [class] is split at white space, an end
    tag closes the open elements up to the nearest one of its name, and
    what is open at the end is closed.  Character references, comments and
    the content models of [script] and the like are not interpreted. *)

Definition is_space (c : ascii) : bool :=
  let n := nat_of_ascii c in
  Nat.eqb n 32 || Nat.eqb n 9 || Nat.eqb n 10 || Nat.eqb n 12 || Nat.eqb n 13.

Definition is_letter (c : ascii) : bool :=
  let n := nat_of_ascii c in
  (Nat.leb 65 n && Nat.leb n 90) || (Nat.leb 97 n && Nat.leb n 122).

Definition lower (c : ascii) : ascii :=
  let n := nat_of_ascii c in
  if Nat.leb 65 n && Nat.leb n 90 then ascii_of_nat (n + 32) else c.

Definition snoc (s : string) (c : ascii) : string := s +:+ String c EmptyString.

(** The words of a [class] attribute. *)
Fixpoint words_from (word : string) (s : string) : list string :=
  match s with
  | EmptyString => if String.eqb word EmptyString then [] else [word]
  | String c s' =>
      if is_space c
      then (if String.eqb word EmptyString then [] else [word]) ++ words_from EmptyString s'
      else words_from (snoc word c) s'
  end.

Definition words (s : string) : list string := words_from EmptyString s.

(** An element that is open: its children so far, the last one first. *)
Record frame : Type := {
  frame_tag : string;
  frame_classes : list string;
  frame_children : list Page.html
}.

(** The tree under construction: the open elements, the innermost first,
    and the nodes at the top, the last one first. *)
Record builder : Type := {
  opened : list frame;
  top : list Page.html
}.

Definition add_node (n : Page.html) (b : builder) : builder :=
  match opened b with
  | [] => {| opened := []; top := n :: top b |}
  | f :: fs =>
      {| opened := {| frame_tag := frame_tag f; frame_classes := frame_classes f;
                      frame_children := n :: frame_children f |} :: fs;
         top := top b |}
  end.

(** Text that follows text continues the same text node. *)
Definition join_text (s : string) (nodes : list Page.html) : list Page.html :=
  match nodes with
  | Page.HText t :: rest => Page.HText (t +:+ s) :: rest
  | _ => Page.HText s :: nodes
  end.

Definition add_text (s : string) (b : builder) : builder :=
  if String.eqb s EmptyString then b
  else
    match opened b with
    | [] => {| opened := []; top := join_text s (top b) |}
    | f :: fs =>
        {| opened := {| frame_tag := frame_tag f; frame_classes := frame_classes f;
                        frame_children := join_text s (frame_children f) |} :: fs;
           top := top b |}
    end.

Definition void_elements : list string :=
  ["area"; "base"; "br"; "col"; "embed"; "hr"; "img"; "input"; "link"; "meta";
   "source"; "track"; "wbr"]%string.

Definition open_element (tag : string) (classes : list string) (b : builder) : builder :=
  if existsb (String.eqb tag) void_elements then add_node (Page.HElem tag classes []) b
  else {| opened := {| frame_tag := tag; frame_classes := classes; frame_children := [] |}
                    :: opened b;
          top := top b |}.

(** The innermost open element is complete. *)
Definition close_innermost (b : builder) : builder :=
  match opened b with
  | [] => b
  | f :: fs =>
      add_node (Page.HElem (frame_tag f) (frame_classes f) (rev (frame_children f)))
               {| opened := fs; top := top b |}
  end.

Fixpoint close_until (tag : string) (fuel : nat) (b : builder) : builder :=
  match fuel with
  | O => b
  | S fuel' =>
      match opened b with
      | [] => b
      | f :: _ =>
          if String.eqb (frame_tag f) tag then close_innermost b
          else close_until tag fuel' (close_innermost b)
      end
  end.

(** An end tag: ignored when no open element has its name. *)
Definition close_element (tag : string) (b : builder) : builder :=
  if existsb (fun f => String.eqb (frame_tag f) tag) (opened b)
  then close_until tag (length (opened b)) b
  else b.

Fixpoint close_all (fuel : nat) (b : builder) : builder :=
  match fuel with
  | O => b
  | S fuel' => close_all fuel' (close_innermost b)
  end.

(** Where the tokenizer is. *)
Inductive mode : Type :=
| Data (text : string)
| TagOpen (text : string)                       (* after < *)
| EndTag (name : string) (done : bool)          (* after </ *)
| TagName (name : string)
| BeforeAttribute (tag : string) (classes : option (list string))
| AttributeName (tag : string) (classes : option (list string)) (name : string)
| AfterAttributeName (tag : string) (classes : option (list string)) (name : string)
| BeforeValue (tag : string) (classes : option (list string)) (name : string)
| AttributeValue (tag : string) (classes : option (list string)) (name : string)
                 (quote : option ascii) (v : string).

(** The classes once the attribute [name] has the value [v]: the first
    [class] attribute of a tag counts. *)
Definition with_attribute (classes : option (list string)) (name v : string)
  : option (list string) :=
  match classes with
  | Some cs => Some cs
  | None => if String.eqb name "class" then Some (words v) else None
  end.

Definition emit (tag : string) (classes : option (list string)) (b : builder) : builder :=
  open_element tag (default [] classes) b.

Definition is_quote (c : ascii) : bool :=
  Nat.eqb (nat_of_ascii c) 34 || Nat.eqb (nat_of_ascii c) 39.

Definition step (c : ascii) (m : mode) (b : builder) : mode * builder :=
  match m with
  | Data text =>
      if Ascii.eqb c "<" then (TagOpen text, b) else (Data (snoc text c), b)
  | TagOpen text =>
      if Ascii.eqb c "/" then (EndTag EmptyString false, add_text text b)
      else if is_letter c then (TagName (String (lower c) EmptyString), add_text text b)
      else if Ascii.eqb c "<" then (TagOpen (snoc text "<"), b)
      else (Data (snoc (snoc text "<") c), b)
  | EndTag name done =>
      if Ascii.eqb c ">" then (Data EmptyString, close_element name b)
      else if done then (EndTag name true, b)
      else if is_space c then (EndTag name true, b)
      else (EndTag (snoc name (lower c)) false, b)
  | TagName name =>
      if Ascii.eqb c ">" then (Data EmptyString, emit name None b)
      else if is_space c || Ascii.eqb c "/" then (BeforeAttribute name None, b)
      else (TagName (snoc name (lower c)), b)
  | BeforeAttribute tag cs =>
      if Ascii.eqb c ">" then (Data EmptyString, emit tag cs b)
      else if is_space c || Ascii.eqb c "/" then (BeforeAttribute tag cs, b)
      else (AttributeName tag cs (String (lower c) EmptyString), b)
  | AttributeName tag cs name =>
      if Ascii.eqb c ">" then (Data EmptyString, emit tag (with_attribute cs name EmptyString) b)
      else if Ascii.eqb c "=" then (BeforeValue tag cs name, b)
      else if Ascii.eqb c "/" then (BeforeAttribute tag (with_attribute cs name EmptyString), b)
      else if is_space c then (AfterAttributeName tag cs name, b)
      else (AttributeName tag cs (snoc name (lower c)), b)
  | AfterAttributeName tag cs name =>
      if Ascii.eqb c ">" then (Data EmptyString, emit tag (with_attribute cs name EmptyString) b)
      else if Ascii.eqb c "=" then (BeforeValue tag cs name, b)
      else if Ascii.eqb c "/" then (BeforeAttribute tag (with_attribute cs name EmptyString), b)
      else if is_space c then (AfterAttributeName tag cs name, b)
      else (AttributeName (tag) (with_attribute cs name EmptyString)
                          (String (lower c) EmptyString), b)
  | BeforeValue tag cs name =>
      if Ascii.eqb c ">" then (Data EmptyString, emit tag (with_attribute cs name EmptyString) b)
      else if is_space c then (BeforeValue tag cs name, b)
      else if is_quote c then (AttributeValue tag cs name (Some c) EmptyString, b)
      else (AttributeValue tag cs name None (String c EmptyString), b)
  | AttributeValue tag cs name (Some q) v =>
      if Ascii.eqb c q then (BeforeAttribute tag (with_attribute cs name v), b)
      else (AttributeValue tag cs name (Some q) (snoc v c), b)
  | AttributeValue tag cs name None v =>
      if Ascii.eqb c ">" then (Data EmptyString, emit tag (with_attribute cs name v) b)
      else if is_space c then (BeforeAttribute tag (with_attribute cs name v), b)
      else (AttributeValue tag cs name None (snoc v c), b)
  end.

Fixpoint tokenize (s : string) (m : mode) (b : builder) : builder :=
  match s with
  | EmptyString =>
      match m with
      | Data text => add_text text b
      | TagOpen text => add_text (snoc text "<") b
      | _ => b                      (* the input ends inside a tag: the tag is dropped *)
      end
  | String c s' => let '(m', b') := step c m b in tokenize s' m' b'
  end.

Definition parse_html (s : string) : list Page.html :=
  let b := tokenize s (Data EmptyString) {| opened := []; top := [] |} in
  rev (top (close_all (length (opened b)) b)).

(** Callbacks run 3 ms after they are due. *)
Definition browser : Page.Browser :=
  {| Page.parse_html := parse_html; Page.runs_at := fun due => due + 3 |}.

End Reference.

(** ** Auxiliary definitions for the proofs *)

(** The scaling [t] of [round_pos N D]. *)
Definition scaling (N D : Z) : Z :=
  let t0 := 52 + Z.log2 D - Z.log2 N in
  if N * 2 ^ Z.max t0 0 <? 2 ^ 52 * (D * 2 ^ Z.max (- t0) 0) then t0 + 1 else t0.

(** The significand chosen for the quotient [a / d]: nearest, ties to even. *)
Definition nearest_even (a d : Z) : Z :=
  let f := a / d in
  let r2 := 2 * (a mod d) in
  if r2 <? d then f else if d <? r2 then f + 1 else if Z.even f then f else f + 1.

(** A value [a * 2^u / 2^v] with [a] below 2^53 is a Number. *)
Definition dyadic (a j : Z) : Number :=
  Fin (a * 2 ^ (52 - Z.log2 a)) (Z.log2 a - 52 - j).

(** A count [h] of hundredths written with up to two decimals. *)
Definition hundredths_string (h : Z) : string :=
  decimal (h / 100)
  +:+ (if h mod 100 =? 0 then EmptyString
       else "." +:+ String (digit_char (h mod 100 / 10))
                      (if h mod 10 =? 0 then EmptyString
                       else String (digit_char (h mod 10)) EmptyString)).

(** Number of decimal zeros [h] ends in, for [0 < h < 10^6]. *)
Definition trailing_zeros (h : Z) : Z :=
  if negb (h mod 10 =? 0) then 0
  else if negb (h mod 100 =? 0) then 1
  else if negb (h mod 1000 =? 0) then 2
  else if negb (h mod 10000 =? 0) then 3
  else if negb (h mod 100000 =? 0) then 4 else 5.

(** Number of digits of the integer part of [h / 100], for [100 <= h < 10^6]. *)
Definition n_of (h : Z) : Z :=
  if h <? 1000 then 1 else if h <? 10000 then 2 else if h <? 100000 then 3 else 4.

(** The significant digits of [h / 100]: [h] without the zeros it ends in,
    and how many digits that leaves. *)
Definition k_of (h : Z) : Z := n_of h + 2 - trailing_zeros h.
Definition s_of (h : Z) : Z := h / 10 ^ trailing_zeros h.

(** [P] on every integer from [base] to [base + 2^bits - 1]. *)
Fixpoint all_below (bits : nat) (base : Z) (P : Z -> bool) : bool :=
  match bits with
  | O => P base
  | S b => all_below b base P && all_below b (base + 2 ^ Z.of_nat b) P
  end.

(** [floor (log_1024 b)] for [0 < b]. *)
Definition ilog1024 (b : Z) : Z := Z.log2 b / 10.

(** What the theorems on [formatFileSize] ask of the host at the byte count
    [b]: the floored quotient of logarithms is the exact one, and the power
    of 1024 it is used in is exact.  ECMA-262 does not bound the error of
    [Math.log] and [Math.pow]; this is the accuracy the function relies
    on. *)
Definition host_exact (h : Host) (b : Z) : Prop :=
  Math_floor (Num_div (Math_log h (of_Z b)) (Math_log h (of_Z 1024))) = of_Z (ilog1024 b)
  /\ Math_pow h (of_Z 1024) (of_Z (ilog1024 b)) = of_Z (1024 ^ ilog1024 b).

(** The number a string of decimal digits denotes. *)
Definition digit_value (c : ascii) : option Z :=
  let n := Z.of_nat (nat_of_ascii c) in
  if (48 <=? n) && (n <=? 57) then Some (n - 48) else None.

Fixpoint decimal_value_from (acc : Z) (s : string) : option Z :=
  match s with
  | EmptyString => Some acc
  | String c s' =>
      match digit_value c with
      | Some d => decimal_value_from (10 * acc + d) s'
      | None => None
      end
  end.

Definition decimal_value (s : string) : option Z :=
  match s with
  | EmptyString => None
  | _ => decimal_value_from 0 s
  end.

(** For [0 <= b < 1024], the numeral [decimal b] reads back as [b]. *)
Definition small_ok (b : Z) : bool :=
  if (0 <=? b) && (b <? 1024) then
    match decimal_value (decimal b) with
    | Some v => v =? b
    | None => false
    end
  else true.

(** A page with one [main .container], empty:
    html > body > main > div.container *)
Definition one_container : Page.page :=
  {| Page.document :=
       Page.Elem 0 "html" [] true
         [Page.Elem 1 "body" [] true
            [Page.Elem 2 "main" [] true
               [Page.Elem 3 "div" ["container"%string] true []]]];
     Page.next_id := 4;
     Page.clock := 0;
     Page.timers := [];
     Page.browser := Reference.browser |}.

(** The [this] a pending task carries. *)
Definition task_this (t : Page.task) : Page.this_value :=
  match t with
  | Page.fadeOut_alerts this => this
  | Page.fade_complete _ this => this
  end.

(** A [this] that is no element of the page. *)
Definition not_a_node (this : Page.this_value) : Prop :=
  match this with
  | Page.ThisNode _ => False
  | _ => True
  end.

(** A page without [main]: html > body > div.container *)
Definition no_main : Page.page :=
  {| Page.document :=
       Page.Elem 0 "html" [] true
         [Page.Elem 1 "body" [] true
            [Page.Elem 2 "div" ["container"%string] true []]];
     Page.next_id := 3;
     Page.clock := 0;
     Page.timers := [];
     Page.browser := Reference.browser |}.

(** The completions pending once a fade-out has started on [els]. *)
Definition pending_fades (this : Page.this_value) (due : Z) (els : list nat)
  : list (Z * Page.task) :=
  map (fun el => (due, Page.fade_complete el this)) els.

(** A pending timer whose callback cannot remove an element. *)
Definition harmless (dt : Z * Page.task) : Prop := not_a_node (task_this (snd dt)).

(** The display flags of elements that have all been hidden. *)
Definition all_hidden (l : list bool) : list bool := map (fun _ => false) l.

(** The document after the fades of [els] have completed. *)
Definition hide_all (els : list nat) (doc : Page.node) : Page.node :=
  fold_left (fun d el => Page.hide el d) els doc.

(** Number of elements of the tree with identity [x]. *)
Definition occurrences (x : nat) (n : Page.node) : nat := length (Page.displayed_at x n).

(** Identities are unique and below the next one to hand out. *)
Definition well_formed (doc : Page.node) (next : nat) : Prop :=
  forall x : nat,
    (occurrences x doc <= 1)%nat /\ ((next <= x)%nat -> occurrences x doc = 0%nat).

(** A page that already shows a banner of its own, outside [main]:
    html > body > (div.alert, main > div.container) *)
Definition with_flash : Page.page :=
  {| Page.document :=
       Page.Elem 0 "html" [] true
         [Page.Elem 1 "body" [] true
            [Page.Elem 2 "div" ["alert"; "alert-success"]%string true [Page.Text "Welcome"];
             Page.Elem 3 "main" [] true
               [Page.Elem 4 "div" ["container"%string] true []]]];
     Page.next_id := 5;
     Page.clock := 0;
     Page.timers := [];
     Page.browser := Reference.browser |}.

(** A store holding one file descriptor. *)
Definition png_store : gmap Store.loc Store.object :=
  {[ 1%positive := Store.OFile {| type := "image/png"; size := 1000 |} ]}.

(** For [1 <= ip <= 1024], the layout of the whole number [ip] is its
    decimal numeral. *)
Definition integer_ok (ip : Z) : bool :=
  if (1 <=? ip) && (ip <=? 1024) then
    String.eqb (decimal ip) (digits (Z.to_nat (n_of (100 * ip))) ip EmptyString)
    && String.eqb (layout (n_of (100 * ip)) (k_of (100 * ip)) (s_of (100 * ip))) (decimal ip)
  else true.

(** [a <= b] on finite Numbers, by their values [m * 2^e]. *)
Definition Num_le (a b : Number) : Prop :=
  match a, b with
  | Fin m e, Fin m' e' => m * 2 ^ Z.max (e - e') 0 <= m' * 2 ^ Z.max (e' - e) 0
  | _, _ => False
  end.

(** The integer part of a Number of exponent at most 0. *)
Definition ifloor (a : Number) : Z :=
  match a with
  | Fin m e => m / 2 ^ (- e)
  | _ => 0
  end.

(** The numerator of the fraction [Num_div] rounds, for a positive divisor. *)
Definition div_num (m1 e1 e0 : Z) : Z := m1 * 2 ^ Z.max (e1 - e0) 0.
(** Its denominator. *)
Definition div_den (m0 e1 e0 : Z) : Z := m0 * 2 ^ Z.max (- (e1 - e0)) 0.

(** [Math.log] is finite, not negative and not decreasing on the byte
    counts from 1 to 1024^4 - 1. *)
Definition log_monotone (h : Host) : Prop :=
  Num_le (of_Z 0) (Math_log h (of_Z 1))
  /\ forall b b' : Z, 1 <= b -> b <= b' -> b' < 1024 ^ 4 ->
       Num_le (Math_log h (of_Z b)) (Math_log h (of_Z b')).

(** The least and the greatest byte count of each of the four units. *)
Definition unit_boundaries : list Z :=
  [1; 1023; 1024; 1048575; 1048576; 1073741823; 1073741824; 1099511627775].

(** The argument of atanh for the significand [m]. *)
Definition atanh_arg (m : Z) : Z := (m - 2 ^ 52) * Reference.scale / (m + 2 ^ 52).

(** The logarithm of the byte count [b] in fixed point, before rounding. *)
Definition log_fix (b : Z) : Z :=
  Z.log2 b * Reference.ln2_fix
  + 2 * Reference.atanh_fix (atanh_arg (b * 2 ^ (52 - Z.log2 b))).

(** The count of hundredths that one or two decimal digits denote. *)
Definition fraction_value (s : string) : option Z :=
  match s with
  | String c1 EmptyString =>
      match digit_value c1 with
      | Some d1 => Some (10 * d1)
      | None => None
      end
  | String c1 (String c2 EmptyString) =>
      match digit_value c1, digit_value c2 with
      | Some d1, Some d2 => Some (10 * d1 + d2)
      | _, _ => None
      end
  | _ => None
  end.

Fixpoint hundredths_from (acc : Z) (s : string) : option Z :=
  match s with
  | EmptyString => Some (100 * acc)
  | String c s' =>
      if Ascii.eqb c "." then
        match fraction_value s' with
        | Some f => Some (100 * acc + f)
        | None => None
        end
      else
        match digit_value c with
        | Some d => hundredths_from (10 * acc + d) s'
        | None => None
        end
  end.

(** The count of hundredths a decimal numeral with at most two decimals
    denotes: digits, then possibly a point and one or two digits. *)
Definition hundredths_value (s : string) : option Z :=
  match s with
  | EmptyString => None
  | String c _ => if Ascii.eqb c "." then None else hundredths_from 0 s
  end.

(** Number of elements of class [c] in parsed markup. *)
Fixpoint count_class (c : string) (h : Page.html) : nat :=
  match h with
  | Page.HText _ => 0
  | Page.HElem _ cs ch =>
      (if Page.has_class c cs then 1 else 0) + list_sum (map (count_class c) ch)
  end.

(** No callback is run before it is due. *)
Definition never_early (b : Page.Browser) : Prop := forall d : Z, d <= Page.runs_at b d.

(** When the fade that the timer of a notification shown at time [shown]
    starts has completed: the timer is due 5000 ms after [shown], and the
    completion of the fade 400 ms after the timer has run. *)
Definition fade_done (b : Page.Browser) (shown : Z) : Z :=
  Page.runs_at b (Page.runs_at b (shown + 5000) + Page.fade_duration).

(** [count] is 1 for an identity [x] from [lo] up to [hi - 1] and 0 for any
    other: the identities given out to new nodes are used once each. *)
Definition fresh_range (x lo hi count : nat) : Prop :=
  (lo <= hi)%nat /\ ((lo <= x < hi)%nat -> count = 1%nat)
  /\ (~ (lo <= x < hi)%nat -> count = 0%nat).




(** * Properties *)

(** ** Rounding to binary64 *)

Lemma pow2_pos (t : Z) : 0 <= t -> 0 < 2 ^ t.
Proof. intros. apply Z.pow_pos_nonneg; lia. Qed.

Lemma pow2_succ (t : Z) : 0 <= t -> 2 ^ (t + 1) = 2 * 2 ^ t.
Proof. intros. rewrite Z.pow_add_r by lia. lia. Qed.

Lemma scaling_spec (N D : Z) :
  0 < N -> 0 < D -> N < 2 ^ 52 * D ->
  let t := scaling N D in
  1 <= t /\ 2 ^ 52 * D <= N * 2 ^ t < 2 ^ 53 * D /\
  52 + Z.log2 D - Z.log2 N <= t <= 53 + Z.log2 D - Z.log2 N.
Proof.
  intros HN HD Hlt. unfold scaling.
  destruct (Z.log2_spec N HN) as [HN1 HN2].
  destruct (Z.log2_spec D HD) as [HD1 HD2].
  pose proof (Z.log2_nonneg N) as HlN. pose proof (Z.log2_nonneg D) as HlD.
  set (lN := Z.log2 N) in *. set (lD := Z.log2 D) in *.
  rewrite Z.pow_succ_r in HN2, HD2 by lia.
  assert (Ht0 : 0 <= 52 + lD - lN).
  { destruct (Z.le_gt_cases lN (52 + lD)) as [|Hgt]; [lia|].
    exfalso.
    assert (H : 2 ^ (52 + lD + 1) <= 2 ^ lN) by (apply Z.pow_le_mono_r; lia).
    rewrite Z.pow_add_r, Z.pow_add_r in H by lia.
    change (2 ^ 1) with 2 in H. nia. }
  set (t0 := 52 + lD - lN) in *.
  rewrite (Z.max_l t0 0), (Z.max_r (- t0) 0) by lia.
  change (2 ^ 0) with 1. rewrite Z.mul_1_r.
  assert (HP : 2 ^ lN * 2 ^ t0 = 2 ^ 52 * 2 ^ lD).
  { rewrite <- !Z.pow_add_r by lia. f_equal. lia. }
  pose proof (pow2_pos t0 Ht0) as HPpos.
  set (A := 2 ^ lN) in *. set (B := 2 ^ lD) in *. set (P := 2 ^ t0) in *.
  assert (Hup : N * P < 2 ^ 53 * D) by (change (2 ^ 53) with (2 * 2 ^ 52); nia).
  assert (Hlo : 2 ^ 51 * D < N * P).
  { change (2 ^ 52) with (2 * 2 ^ 51) in HP. nia. }
  destruct (Z.ltb_spec (N * P) (2 ^ 52 * D)) as [Hb|Hb].
  - rewrite pow2_succ by lia. fold P.
    change (2 ^ 53) with (2 * 2 ^ 52). change (2 ^ 52) with (2 * 2 ^ 51) at 1.
    repeat split; try lia.
  - repeat split; try lia.
    destruct (Z.eq_dec t0 0) as [E|]; [|lia].
    exfalso. subst P. rewrite E in Hb. change (2 ^ 0) with 1 in Hb. lia.
Qed.

Lemma round_pos_small (N D : Z) :
  0 < N -> 0 < D -> N < 2 ^ 52 * D ->
  let t := scaling N D in
  let m := nearest_even (N * 2 ^ t) D in
  round_pos N D = if m =? 2 ^ 53 then Fin (2 ^ 52) (1 - t) else Fin m (- t).
Proof.
  intros HN HD Hlt t m.
  destruct (scaling_spec N D HN HD Hlt) as (Ht & _ & _). fold t in Ht.
  unfold round_pos. fold (scaling N D). fold t.
  rewrite (Z.max_l t 0), (Z.max_r (- t) 0) by lia.
  change (2 ^ 0) with 1. rewrite Z.mul_1_r. reflexivity.
Qed.

Lemma nearest_even_bounds (a d : Z) :
  0 < d -> 0 <= a ->
  let m := nearest_even a d in
  a / d <= m <= a / d + 1 /\ 2 * Z.abs (a - m * d) <= d.
Proof.
  intros Hd Ha. unfold nearest_even.
  pose proof (Z.div_mod a d ltac:(lia)) as E.
  pose proof (Z.mod_pos_bound a d Hd) as B.
  set (f := a / d) in *. set (r := a mod d) in *.
  destruct (Z.ltb_spec (2 * r) d); [split; lia|].
  destruct (Z.ltb_spec d (2 * r)); [split; lia|].
  destruct (Z.even f); split; lia.
Qed.

Lemma nearest_even_cross (a d a' d' : Z) :
  0 < d -> 0 < d' -> 0 <= a -> a * d' = a' * d ->
  nearest_even a d = nearest_even a' d'.
Proof.
  intros Hd Hd' Ha E. unfold nearest_even.
  assert (Ha' : 0 <= a') by nia.
  pose proof (Z.div_mod a d ltac:(lia)) as E1.
  pose proof (Z.mod_pos_bound a d Hd) as B1.
  pose proof (Z.div_mod a' d' ltac:(lia)) as E2.
  pose proof (Z.mod_pos_bound a' d' Hd') as B2.
  set (f := a / d) in *. set (f' := a' / d') in *.
  set (r := a mod d) in *. set (r' := a' mod d') in *.
  assert (Hf : f = f').
  { assert (f * d * d' <= a' * d) by nia.
    assert (a' * d < (f + 1) * d * d') by nia.
    assert (f' * d' * d <= a * d') by nia.
    assert (a * d' < (f' + 1) * d' * d) by nia.
    assert (f * d' <= a') by nia.
    assert (a' < (f + 1) * d') by nia.
    nia. }
  rewrite <- Hf in *. clearbody f r r'. clear f' Hf.
  assert (Hr : r * d' = r' * d) by nia.
  assert (C1 : (2 * r <? d) = (2 * r' <? d')).
  { destruct (Z.ltb_spec (2 * r) d), (Z.ltb_spec (2 * r') d'); try reflexivity; exfalso; nia. }
  assert (C2 : (d <? 2 * r) = (d' <? 2 * r')).
  { destruct (Z.ltb_spec d (2 * r)), (Z.ltb_spec d' (2 * r')); try reflexivity; exfalso; nia. }
  rewrite C1, C2. reflexivity.
Qed.

Lemma scaling_cross (N D N' D' : Z) :
  0 < N -> 0 < D -> N < 2 ^ 52 * D ->
  0 < N' -> 0 < D' -> N * D' = N' * D ->
  scaling N D = scaling N' D'.
Proof.
  intros HN HD Hlt HN' HD' E.
  assert (Hlt' : N' < 2 ^ 52 * D') by nia.
  destruct (scaling_spec N D HN HD Hlt) as (Ht & [L U] & _).
  destruct (scaling_spec N' D' HN' HD' Hlt') as (Ht' & [L' U'] & _).
  set (t := scaling N D) in *. set (t' := scaling N' D') in *.
  destruct (Z.lt_trichotomy t t') as [H|[H|H]]; [exfalso| exact H |exfalso].
  - assert (P : 2 ^ (t + 1) <= 2 ^ t') by (apply Z.pow_le_mono_r; lia).
    rewrite pow2_succ in P by lia.
    pose proof (pow2_pos t ltac:(lia)).
    set (p := 2 ^ t) in *. set (p' := 2 ^ t') in *.
    assert (2 ^ 52 * D * D' * 2 <= N * p * D' * 2) by nia.
    assert (N' * p' * D < 2 ^ 53 * D' * D) by nia.
    assert (N * D' * (2 * p) <= N' * D * p') by nia.
    change (2 ^ 53) with (2 ^ 52 * 2) in *. nia.
  - assert (P : 2 ^ (t' + 1) <= 2 ^ t) by (apply Z.pow_le_mono_r; lia).
    rewrite pow2_succ in P by lia.
    pose proof (pow2_pos t' ltac:(lia)).
    set (p := 2 ^ t) in *. set (p' := 2 ^ t') in *.
    assert (2 ^ 52 * D' * D * 2 <= N' * p' * D * 2) by nia.
    assert (N * p * D' < 2 ^ 53 * D * D') by nia.
    assert (N' * D * (2 * p') <= N * D' * p) by nia.
    change (2 ^ 53) with (2 ^ 52 * 2) in *. nia.
Qed.

(** Rounding depends on the value of the fraction only. *)
Lemma round_pos_cross (N D N' D' : Z) :
  0 < N -> 0 < D -> N < 2 ^ 52 * D ->
  0 < N' -> 0 < D' -> N * D' = N' * D ->
  round_pos N D = round_pos N' D'.
Proof.
  intros HN HD Hlt HN' HD' E.
  assert (Hlt' : N' < 2 ^ 52 * D') by nia.
  rewrite (round_pos_small N D), (round_pos_small N' D') by assumption.
  rewrite <- (scaling_cross N D N' D') by assumption.
  destruct (scaling_spec N D HN HD Hlt) as (Ht & _ & _).
  set (t := scaling N D) in *.
  pose proof (pow2_pos t ltac:(lia)).
  rewrite (nearest_even_cross (N * 2 ^ t) D (N' * 2 ^ t) D') by nia.
  reflexivity.
Qed.

(** The result of rounding: a 53-bit significand within half a unit in the
    last place of the fraction. *)
Lemma round_pos_spec (N D : Z) :
  0 < N -> 0 < D -> N < 2 ^ 52 * D ->
  exists m e,
    round_pos N D = Fin m e /\ 2 ^ 52 <= m < 2 ^ 53 /\ e <= 0 /\
    2 * Z.abs (N * 2 ^ (- e) - m * D) <= D /\
    51 + Z.log2 D - Z.log2 N <= - e <= 53 + Z.log2 D - Z.log2 N.
Proof.
  intros HN HD Hlt.
  rewrite (round_pos_small N D) by assumption.
  destruct (scaling_spec N D HN HD Hlt) as (Ht & [L U] & Hr).
  set (t := scaling N D) in *.
  pose proof (pow2_pos t ltac:(lia)) as Hp.
  destruct (nearest_even_bounds (N * 2 ^ t) D HD ltac:(nia)) as [[B1 B2] B3].
  set (m := nearest_even (N * 2 ^ t) D) in *.
  assert (F1 : 2 ^ 52 <= N * 2 ^ t / D) by (apply Z.div_le_lower_bound; lia).
  assert (F2 : N * 2 ^ t / D < 2 ^ 53) by (apply Z.div_lt_upper_bound; lia).
  destruct (Z.eqb_spec m (2 ^ 53)) as [Em|Em].
  - exists (2 ^ 52), (1 - t). split; [reflexivity|].
    split; [lia|]. split; [lia|]. split; [|lia].
    replace (- (1 - t)) with (t - 1) by lia.
    assert (P : 2 ^ t = 2 * 2 ^ (t - 1)).
    { rewrite <- pow2_succ by lia. f_equal. lia. }
    rewrite Em, P in B3. change (2 ^ 53) with (2 * 2 ^ 52) in B3. lia.
  - exists m, (- t). split; [reflexivity|].
    split; [lia|]. split; [lia|]. split; [|lia].
    rewrite Z.opp_involutive. exact B3.
Qed.

Lemma round_pos_unfold (N D : Z) :
  round_pos N D =
  let t := scaling N D in
  let m := nearest_even (N * 2 ^ Z.max t 0) (D * 2 ^ Z.max (- t) 0) in
  if m =? 2 ^ 53 then Fin (2 ^ 52) (1 - t) else Fin m (- t).
Proof. reflexivity. Qed.

Lemma round_pos_dyadic (a u v : Z) :
  0 < a < 2 ^ 53 -> 0 <= u -> 0 <= v ->
  round_pos (a * 2 ^ u) (2 ^ v) = dyadic a (v - u).
Proof.
  intros Ha Hu Hv. rewrite round_pos_unfold. unfold dyadic.
  pose proof (Z.log2_nonneg a) as Hl.
  assert (Hl2 : Z.log2 a < 53) by (apply Z.log2_lt_pow2; lia).
  destruct (Z.log2_spec a ltac:(lia)) as [La Ua].
  rewrite Z.pow_succ_r in Ua by lia.
  set (l := Z.log2 a) in *.
  assert (Hm : 2 ^ 52 <= a * 2 ^ (52 - l) < 2 ^ 53).
  { assert (P : 2 ^ l * 2 ^ (52 - l) = 2 ^ 52) by (rewrite <- Z.pow_add_r by lia; f_equal; lia).
    pose proof (pow2_pos (52 - l) ltac:(lia)).
    change (2 ^ 53) with (2 * 2 ^ 52). rewrite <- P.
    set (X := 2 ^ l) in *. set (Y := 2 ^ (52 - l)) in *.
    clearbody X Y. clear P. split; nia. }
  assert (Hq : forall t, t = 52 + v - l - u ->
               a * 2 ^ u * 2 ^ Z.max t 0
               = a * 2 ^ (52 - l) * (2 ^ v * 2 ^ Z.max (- t) 0)).
  { intros t ->. rewrite <- !Z.mul_assoc, <- !Z.pow_add_r by lia. do 2 f_equal. lia. }
  assert (Hp : forall t, 0 < 2 ^ v * 2 ^ Z.max (- t) 0).
  { intros t. apply Z.mul_pos_pos; apply pow2_pos; lia. }
  assert (Hs : scaling (a * 2 ^ u) (2 ^ v) = 52 + v - l - u).
  { unfold scaling. rewrite Z.log2_mul_pow2, Z.log2_pow2 by lia. fold l.
    rewrite (Hq (52 + v - (u + l))) by lia.
    specialize (Hp (52 + v - (u + l))).
    set (Q := 2 ^ v * 2 ^ Z.max (- (52 + v - (u + l))) 0) in *.
    set (ma := a * 2 ^ (52 - l)) in *.
    destruct (Z.ltb_spec (ma * Q) (2 ^ 52 * Q)) as [Hb|Hb]; [exfalso; nia|lia]. }
  rewrite Hs. cbv zeta. unfold nearest_even.
  rewrite (Hq (52 + v - l - u)) by lia.
  specialize (Hp (52 + v - l - u)).
  set (Q := 2 ^ v * 2 ^ Z.max (- (52 + v - l - u)) 0) in *.
  set (ma := a * 2 ^ (52 - l)) in *.
  rewrite Z.div_mul, Z.mod_mul by lia.
  change (2 * 0) with 0.
  destruct (Z.ltb_spec 0 Q); [|lia].
  destruct (Z.eqb_spec ma (2 ^ 53)); [lia|].
  f_equal. lia.
Qed.

Lemma round64_pos (N D : Z) : 0 < N -> round64 N D = round_pos N D.
Proof. intros H. destruct N; try lia. reflexivity. Qed.

Lemma dyadic_significand (a : Z) :
  0 < a < 2 ^ 53 -> 2 ^ 52 <= a * 2 ^ (52 - Z.log2 a) < 2 ^ 53.
Proof.
  intros Ha.
  pose proof (Z.log2_nonneg a) as Hl.
  assert (Hl2 : Z.log2 a < 53) by (apply Z.log2_lt_pow2; lia).
  destruct (Z.log2_spec a ltac:(lia)) as [La Ua].
  rewrite Z.pow_succ_r in Ua by lia.
  set (l := Z.log2 a) in *.
  assert (P : 2 ^ l * 2 ^ (52 - l) = 2 ^ 52) by (rewrite <- Z.pow_add_r by lia; f_equal; lia).
  pose proof (pow2_pos (52 - l) ltac:(lia)).
  change (2 ^ 53) with (2 * 2 ^ 52). rewrite <- P.
  set (X := 2 ^ l) in *. set (Y := 2 ^ (52 - l)) in *.
  clearbody X Y. clear P. split; nia.
Qed.

Lemma of_Z_dyadic (a : Z) : 0 < a < 2 ^ 53 -> of_Z a = dyadic a 0.
Proof.
  intros Ha. unfold of_Z. rewrite round64_pos by lia.
  pose proof (round_pos_dyadic a 0 0 Ha ltac:(lia) ltac:(lia)) as H.
  change (2 ^ 0) with 1 in H. rewrite Z.mul_1_r in H. exact H.
Qed.

(** Division by a power of two is exact. *)
Lemma Num_div_dyadic_pow2 (a j e2 : Z) :
  0 < a < 2 ^ 53 ->
  Num_div (dyadic a j) (Fin (2 ^ 52) e2) = dyadic a (j + e2 + 52).
Proof.
  intros Ha. pose proof (dyadic_significand a Ha) as Hm.
  unfold Num_div, dyadic at 1.
  change (2 ^ 52 =? 0) with false. cbv iota.
  change (Z.sgn (2 ^ 52)) with 1. change (Z.abs (2 ^ 52)) with (2 ^ 52).
  rewrite Z.mul_1_l.
  set (d := Z.log2 a - 52 - j - e2).
  rewrite <- Z.mul_assoc, <- !Z.pow_add_r
    by (pose proof (Z.log2_nonneg a); assert (Z.log2 a < 53) by (apply Z.log2_lt_pow2; lia); lia).
  assert (Hl2 : Z.log2 a < 53) by (apply Z.log2_lt_pow2; lia).
  pose proof (Z.log2_nonneg a).
  rewrite round64_pos by (apply Z.mul_pos_pos; [lia|apply pow2_pos; lia]).
  rewrite round_pos_dyadic by lia.
  f_equal. lia.
Qed.

(** A product below 2^53 is exact. *)
Lemma Num_mul_dyadic (a j c j' : Z) :
  0 < a -> 0 < c -> a * c < 2 ^ 53 ->
  Num_mul (dyadic a j) (dyadic c j') = dyadic (a * c) (j + j').
Proof.
  intros Ha Hc Hac.
  assert (Ha' : 0 < a < 2 ^ 53) by nia.
  assert (Hc' : 0 < c < 2 ^ 53) by nia.
  pose proof (Z.log2_nonneg a) as La. pose proof (Z.log2_nonneg c) as Lc.
  assert (La2 : Z.log2 a < 53) by (apply Z.log2_lt_pow2; lia).
  assert (Lc2 : Z.log2 c < 53) by (apply Z.log2_lt_pow2; lia).
  unfold dyadic at 1 2. unfold Num_mul.
  set (la := Z.log2 a) in *. set (lc := Z.log2 c) in *.
  set (e := la - 52 - j + (lc - 52 - j')).
  replace (a * 2 ^ (52 - la) * (c * 2 ^ (52 - lc)) * 2 ^ Z.max e 0)
    with (a * c * 2 ^ (104 - la - lc + Z.max e 0)).
  2:{ replace (104 - la - lc + Z.max e 0) with ((52 - la) + (52 - lc) + Z.max e 0) by lia.
      rewrite !Z.pow_add_r by lia. ring. }
  rewrite round64_pos by (apply Z.mul_pos_pos; [nia|apply pow2_pos; lia]).
  rewrite round_pos_dyadic by lia.
  f_equal. lia.
Qed.

(** [Math.round] of an exact value [a / 2^j]. *)
Lemma Math_round_dyadic (a j : Z) :
  0 < a < 2 ^ 53 -> 0 <= j ->
  Math_round (dyadic a j) = of_Z ((2 * a + 2 ^ j) / 2 ^ (j + 1)).
Proof.
  intros Ha Hj.
  pose proof (Z.log2_nonneg a) as La.
  assert (La2 : Z.log2 a < 53) by (apply Z.log2_lt_pow2; lia).
  unfold Math_round, dyadic.
  set (l := Z.log2 a) in *.
  destruct (Z.leb_spec 0 (l - 52 - j)) as [He|He].
  - assert (j = 0) by lia. subst j.
    change (2 ^ 0) with 1. change (2 ^ (0 + 1)) with 2.
    replace ((2 * a + 1) / 2) with a by (apply Z.div_unique with (r := 1); lia).
    rewrite of_Z_dyadic by lia. reflexivity.
  - f_equal.
    replace (- (l - 52 - j)) with (j + (52 - l)) by lia.
    replace (1 - (l - 52 - j)) with (j + 1 + (52 - l)) by lia.
    rewrite (Z.pow_add_r 2 j), (Z.pow_add_r 2 (j + 1)) by lia.
    replace (2 * (a * 2 ^ (52 - l)) + 2 ^ j * 2 ^ (52 - l))
      with ((2 * a + 2 ^ j) * 2 ^ (52 - l)) by ring.
    apply Z.div_mul_cancel_r.
    + pose proof (pow2_pos (j + 1) ltac:(lia)). lia.
    + pose proof (pow2_pos (52 - l) ltac:(lia)). lia.
Qed.

(** The quotient of two integers below 2^53 is their fraction, rounded. *)
Lemma Num_div_of_Z (a c : Z) :
  0 < a < 2 ^ 53 -> 0 < c < 2 ^ 53 -> a < 2 ^ 52 * c ->
  Num_div (of_Z a) (of_Z c) = round_pos a c.
Proof.
  intros Ha Hc Hac.
  rewrite !of_Z_dyadic by assumption.
  pose proof (dyadic_significand a Ha) as Hma.
  pose proof (dyadic_significand c Hc) as Hmc.
  pose proof (Z.log2_nonneg a) as La. pose proof (Z.log2_nonneg c) as Lc.
  assert (La2 : Z.log2 a < 53) by (apply Z.log2_lt_pow2; lia).
  assert (Lc2 : Z.log2 c < 53) by (apply Z.log2_lt_pow2; lia).
  unfold Num_div, dyadic.
  set (la := Z.log2 a) in *. set (lc := Z.log2 c) in *.
  set (ma := a * 2 ^ (52 - la)) in *. set (mc := c * 2 ^ (52 - lc)) in *.
  destruct (Z.eqb_spec mc 0); [lia|].
  rewrite Z.sgn_pos, Z.abs_eq, Z.mul_1_l by lia.
  set (d := la - 52 - 0 - (lc - 52 - 0)).
  pose proof (pow2_pos (Z.max d 0) ltac:(lia)).
  pose proof (pow2_pos (Z.max (- d) 0) ltac:(lia)).
  rewrite round64_pos by nia.
  symmetry. apply round_pos_cross; try lia; try nia.
  unfold ma, mc.
  replace (a * (c * 2 ^ (52 - lc) * 2 ^ Z.max (- d) 0))
    with (a * c * 2 ^ (52 - lc + Z.max (- d) 0)) by (rewrite Z.pow_add_r by lia; ring).
  replace (a * 2 ^ (52 - la) * 2 ^ Z.max d 0 * c)
    with (a * c * 2 ^ (52 - la + Z.max d 0)) by (rewrite Z.pow_add_r by lia; ring).
  do 2 f_equal. lia.
Qed.

(** ** Number::toString on hundredths *)

Lemma all_below_spec (bits : nat) (base : Z) (P : Z -> bool) :
  all_below bits base P = true ->
  forall z, base <= z < base + 2 ^ Z.of_nat bits -> P z = true.
Proof.
  revert base. induction bits as [|b IH]; intros base H z Hz.
  - simpl in *. replace z with base by lia. exact H.
  - cbn [all_below] in H. apply andb_true_iff in H as [H1 H2].
    rewrite Nat2Z.inj_succ, Z.pow_succ_r in Hz by lia.
    destruct (Z.lt_ge_cases z (base + 2 ^ Z.of_nat b)).
    + apply (IH base); [assumption|lia].
    + apply (IH (base + 2 ^ Z.of_nat b)); [assumption|lia].
Qed.

Lemma Number_eqb_Fin (a : Number) (m e : Z) :
  Number_eqb a (Fin m e) = true <-> a = Fin m e.
Proof.
  destruct a as [| |m' e']; cbn; try (split; [discriminate|discriminate]).
  rewrite andb_true_iff, Z.eqb_eq, Z.eqb_eq. split.
  - intros [-> ->]. reflexivity.
  - intros [= -> ->]. split; reflexivity.
Qed.

(** The digit decomposition of a count of hundredths. *)
Lemma hundredths_shape (h : Z) :
  100 <= h <= 102400 ->
  let n := n_of h in let k := k_of h in let s := s_of h in
  1 <= n <= 4 /\ 1 <= k <= n + 2 /\ h = s * 10 ^ (n + 2 - k) /\
  10 ^ (k - 1) <= s < 10 ^ k /\ s mod 10 <> 0 /\
  10 ^ (n + 1) <= h < 10 ^ (n + 2).
Proof.
  intros Hh. unfold k_of, s_of, n_of, trailing_zeros.
  destruct (Z.ltb_spec h 1000); [|destruct (Z.ltb_spec h 10000); [|destruct (Z.ltb_spec h 100000)]];
  (destruct (Z.eqb_spec (h mod 10) 0); cbn [negb];
   [destruct (Z.eqb_spec (h mod 100) 0); cbn [negb];
    [destruct (Z.eqb_spec (h mod 1000) 0); cbn [negb];
     [destruct (Z.eqb_spec (h mod 10000) 0); cbn [negb];
      [destruct (Z.eqb_spec (h mod 100000) 0); cbn [negb]|]|]|]|]);
  cbv zeta.
  all: repeat match goal with
         | |- context [10 ^ ?x] =>
             let v := eval vm_compute in x in
             let p := eval vm_compute in (10 ^ v) in
             change (10 ^ x) with p
         end.
  all: Z.to_euclidean_division_equations; lia.
Qed.

Lemma shortest_S (f : nat) (m e n k : Z) :
  shortest (S f) m e n k =
  let lo := scaled_floor m e (k - n) in
  let hi := lo + 1 in
  let ok_lo := (10 ^ (k - 1) <=? lo) && Number_eqb (of_decimal lo (n - k)) (Fin m e) in
  let ok_hi := Number_eqb (of_decimal hi (n - k)) (Fin m e) in
  let pick_hi := if hi =? 10 ^ k then (n + 1, k, 10 ^ (k - 1)) else (n, k, hi) in
  match ok_lo, ok_hi with
  | true, false => (n, k, lo)
  | false, true => pick_hi
  | true, true =>
      match cmp_decimal (2 * m) e (lo + hi) (n - k) with
      | Lt => (n, k, lo)
      | Gt => pick_hi
      | Eq => if Z.even lo then (n, k, lo) else pick_hi
      end
  | false, false => shortest f m e n (k + 1)
  end.
Proof. reflexivity. Qed.

Ltac pow10 :=
  repeat match goal with
         | |- context [10 ^ ?x] =>
             let v := eval vm_compute in x in
             let p := eval vm_compute in (10 ^ v) in
             change (10 ^ x) with p
         | H : context [10 ^ ?x] |- _ =>
             let v := eval vm_compute in x in
             let p := eval vm_compute in (10 ^ v) in
             change (10 ^ x) with p in H
         end.

Lemma div_near (a d s : Z) :
  0 < d -> (s - 1) * d <= a < (s + 1) * d -> a / d = s \/ a / d = s - 1.
Proof.
  intros Hd Ha. destruct (Z.lt_ge_cases a (s * d)).
  - right. symmetry. apply Z.div_unique with (r := a - (s - 1) * d); lia.
  - left. symmetry. apply Z.div_unique with (r := a - s * d); lia.
Qed.

Section Hundredths.

Variables h m j : Z.
Hypothesis Hh : 100 <= h <= 102400.
Hypothesis Hm : 2 ^ 52 <= m < 2 ^ 53.
Hypothesis Hj : 41 <= j <= 53.
Hypothesis Hb : 2 * Z.abs (h * 2 ^ j - m * 100) <= 100.
Hypothesis Hx : round_pos h 100 = Fin m (- j).

Local Abbreviation U := (2 ^ j).

Lemma U_large : 2 ^ 41 <= U.
Proof. apply Z.pow_le_mono_r; lia. Qed.

Lemma cand_bound (c i : Z) :
  0 < c <= 10 ^ 9 -> -2 <= i <= 5 ->
  of_decimal c i = Fin m (- j) ->
  2 * Z.abs (c * 10 ^ (i + 2) * U - 100 * m) <= 100.
Proof.
  intros Hc Hi E. unfold of_decimal in E.
  assert (HN : 0 < c * 10 ^ Z.max i 0).
  { apply Z.mul_pos_pos; [lia|]. apply Z.pow_pos_nonneg; lia. }
  assert (HD : 0 < 10 ^ Z.max (- i) 0) by (apply Z.pow_pos_nonneg; lia).
  rewrite round64_pos in E by exact HN.
  assert (Hlt : c * 10 ^ Z.max i 0 < 2 ^ 52 * 10 ^ Z.max (- i) 0).
  { assert (10 ^ Z.max i 0 <= 10 ^ 5) by (apply Z.pow_le_mono_r; lia).
    assert (c * 10 ^ Z.max i 0 <= 10 ^ 9 * 10 ^ 5) by (apply Z.mul_le_mono_nonneg; lia).
    change (10 ^ 9 * 10 ^ 5) with 100000000000000 in *.
    change (2 ^ 52) with 4503599627370496. lia. }
  destruct (round_pos_spec _ _ HN HD Hlt) as (m' & e' & E' & _ & _ & B & _).
  rewrite E' in E. injection E as -> ->. rewrite Z.opp_involutive in B.
  assert (Hcases : i = -2 \/ i = -1 \/ 0 <= i) by lia.
  destruct Hcases as [->|[->|Hi0]].
  - change (10 ^ Z.max (-2) 0) with 1 in B. change (10 ^ Z.max (- -2) 0) with 100 in B.
    change (10 ^ (-2 + 2)) with 1. lia.
  - change (10 ^ Z.max (-1) 0) with 1 in B. change (10 ^ Z.max (- -1) 0) with 10 in B.
    change (10 ^ (-1 + 2)) with 10. lia.
  - rewrite (Z.max_l i 0), (Z.max_r (- i) 0) in B by lia. change (10 ^ 0) with 1 in B.
    rewrite Z.pow_add_r by lia. change (10 ^ 2) with 100.
    set (P := 10 ^ i) in *. lia.
Qed.

Lemma cand_reject (c i : Z) :
  0 <= c <= 10 ^ 9 -> -2 <= i <= 5 -> c * 10 ^ (i + 2) <> h ->
  Number_eqb (of_decimal c i) (Fin m (- j)) = false.
Proof.
  intros Hc Hi Hne.
  destruct (Number_eqb (of_decimal c i) (Fin m (- j))) eqn:E; [exfalso|reflexivity].
  apply Number_eqb_Fin in E.
  destruct (Z.eq_dec c 0) as [->|Hc0].
  - unfold of_decimal in E. rewrite Z.mul_0_l in E. cbn in E. injection E as E _. lia.
  - pose proof (cand_bound c i ltac:(lia) Hi E) as B.
    pose proof U_large as HU. change (2 ^ 41) with 2199023255552 in HU.
    set (C := c * 10 ^ (i + 2)) in *.
    assert (Hd : Z.abs ((C - h) * U) <= 100) by lia.
    assert (1 <= Z.abs (C - h)) by lia.
    rewrite Z.abs_mul in Hd. rewrite (Z.abs_eq U) in Hd by lia. nia.
Qed.

Lemma cand_accept (c i : Z) :
  0 < c -> -2 <= i <= 5 -> c * 10 ^ (i + 2) = h ->
  Number_eqb (of_decimal c i) (Fin m (- j)) = true.
Proof.
  intros Hc Hi E. apply Number_eqb_Fin. unfold of_decimal.
  assert (HN : 0 < c * 10 ^ Z.max i 0).
  { apply Z.mul_pos_pos; [lia|]. apply Z.pow_pos_nonneg; lia. }
  assert (HD : 0 < 10 ^ Z.max (- i) 0) by (apply Z.pow_pos_nonneg; lia).
  rewrite round64_pos by exact HN.
  rewrite <- Hx. symmetry.
  apply round_pos_cross;
    [lia | lia | change (2 ^ 52) with 4503599627370496; lia | exact HN | exact HD | ].
  assert (Hcases : i = -2 \/ i = -1 \/ 0 <= i) by lia.
  destruct Hcases as [->|[->|Hi0]].
  - change (10 ^ (-2 + 2)) with 1 in E.
    change (10 ^ Z.max (-2) 0) with 1. change (10 ^ Z.max (- -2) 0) with 100. lia.
  - change (10 ^ (-1 + 2)) with 10 in E.
    change (10 ^ Z.max (-1) 0) with 1. change (10 ^ Z.max (- -1) 0) with 10. lia.
  - rewrite (Z.max_l i 0), (Z.max_r (- i) 0) by lia. change (10 ^ 0) with 1.
    rewrite Z.pow_add_r in E by lia. change (10 ^ 2) with 100 in E. lia.
Qed.

Lemma scaled_floor_eq (i : Z) :
  scaled_floor m (- j) (- i) = (m * 10 ^ Z.max (- i) 0) / (U * 10 ^ Z.max i 0).
Proof.
  unfold scaled_floor. rewrite (Z.max_r (- j) 0), Z.opp_involutive, (Z.max_l j 0) by lia.
  change (2 ^ 0) with 1. rewrite Z.mul_1_r, Z.opp_involutive. reflexivity.
Qed.

Lemma m_upper : 100 * m <= 102400 * U + 50.
Proof.
  pose proof U_large as HU. change (2 ^ 41) with 2199023255552 in HU.
  assert (h * U <= 102400 * U) by (apply Z.mul_le_mono_nonneg_r; lia). lia.
Qed.

Lemma m_lower (t : Z) : 0 <= t -> 100 * t <= h -> t * U <= m.
Proof.
  intros Ht Hth.
  pose proof U_large as HU. change (2 ^ 41) with 2199023255552 in HU.
  assert (100 * t * U <= h * U) by (apply Z.mul_le_mono_nonneg_r; lia). lia.
Qed.

Lemma lo_range (i : Z) :
  -5 <= i <= 3 -> 0 <= scaled_floor m (- j) (- i) <= 10 ^ 9 - 1.
Proof.
  intros Hi. rewrite scaled_floor_eq.
  pose proof U_large as HU. change (2 ^ 41) with 2199023255552 in HU.
  pose proof m_upper as Hup.
  change (2 ^ 52) with 4503599627370496 in Hm.
  assert (Hq : i = -5 \/ i = -4 \/ i = -3 \/ i = -2 \/ i = -1 \/ i = 0 \/ i = 1
               \/ i = 2 \/ i = 3) by lia.
  change (10 ^ 9 - 1) with 999999999.
  destruct Hq as [->|[->|[->|[->|[->|[->|[->|[->| ->]]]]]]]];
    cbn [Z.opp Z.max Z.compare Pos.compare Pos.compare_cont]; pow10;
    (split; [apply Z.div_pos; lia | apply Z.lt_succ_r, Z.div_lt_upper_bound; lia]).
Qed.

Lemma lo_at_digits (s i : Z) :
  -2 <= i <= 3 -> s * 10 ^ (i + 2) = h ->
  scaled_floor m (- j) (- i) = s \/ scaled_floor m (- j) (- i) = s - 1.
Proof.
  intros Hi E. rewrite scaled_floor_eq.
  pose proof U_large as HU. change (2 ^ 41) with 2199023255552 in HU.
  assert (Hq : i = -2 \/ i = -1 \/ i = 0 \/ i = 1 \/ i = 2 \/ i = 3) by lia.
  destruct Hq as [->|[->|[->|[->|[->| ->]]]]];
    cbn [Z.opp Z.max Z.compare Pos.compare Pos.compare_cont]; pow10;
    rewrite ?Z.mul_1_r; rewrite <- E in Hb.
  - apply div_near; lia.
  - apply div_near; lia.
  - left. replace m with (s * U) by lia. apply Z.div_mul. lia.
  - left. replace m with (s * (U * 10)) by lia. apply Z.div_mul. lia.
  - left. replace m with (s * (U * 100)) by lia. apply Z.div_mul. lia.
  - left. replace m with (s * (U * 1000)) by lia. apply Z.div_mul. lia.
Qed.

Local Abbreviation n := (n_of h).
Local Abbreviation kh := (k_of h).
Local Abbreviation sh := (s_of h).

Lemma not_multiple (k c : Z) : 1 <= k < kh -> c * 10 ^ (n - k + 2) <> h.
Proof.
  intros Hk E.
  destruct (hundredths_shape h Hh) as (Hn & Hkh & E2 & _ & Hs & _).
  replace (n - k + 2) with ((kh - k - 1) + 1 + (n + 2 - kh)) in E by lia.
  rewrite !Z.pow_add_r in E by lia. change (10 ^ 1) with 10 in E.
  assert (Hp : 0 < 10 ^ (n + 2 - kh)) by (apply Z.pow_pos_nonneg; lia).
  set (P := 10 ^ (n + 2 - kh)) in *. set (Q := 10 ^ (kh - k - 1)) in *.
  assert (E3 : sh = c * Q * 10) by nia.
  apply Hs. rewrite E3. apply Z.mod_mul. lia.
Qed.

Lemma shortest_loop (d : nat) :
  forall (k : Z) (f : nat),
    1 <= k -> k + Z.of_nat d = kh -> (d < f)%nat ->
    shortest f m (- j) n k = (n, kh, sh).
Proof.
  destruct (hundredths_shape h Hh) as (Hn & Hkh & E2 & Hs3 & Hs & _).
  assert (Hsh : 0 < sh < 10 ^ 6).
  { assert (10 ^ kh <= 10 ^ 6) by (apply Z.pow_le_mono_r; lia).
    assert (0 < 10 ^ (kh - 1)) by (apply Z.pow_pos_nonneg; lia). lia. }
  change (10 ^ 6) with 1000000 in Hsh.
  induction d as [|d IH]; intros k f Hk Hkd Hf; (destruct f as [|f]; [lia|]);
    rewrite shortest_S; cbv zeta; replace (k - n) with (- (n - k)) by lia.
  - assert (k = kh) by lia. subst k.
    assert (E3 : sh * 10 ^ (n - kh + 2) = h).
    { replace (n - kh + 2) with (n + 2 - kh) by lia. symmetry. exact E2. }
    assert (Hpos : 0 < 10 ^ (n - kh + 2)) by (apply Z.pow_pos_nonneg; lia).
    destruct (lo_at_digits sh (n - kh) ltac:(lia) E3) as [Hlo|Hlo]; rewrite Hlo.
    + rewrite (cand_accept sh (n - kh)) by (assumption || lia).
      rewrite (cand_reject (sh + 1) (n - kh)) by (change (10 ^ 9) with 1000000000; nia).
      destruct (Z.leb_spec (10 ^ (kh - 1)) sh); [reflexivity|lia].
    + rewrite (cand_reject (sh - 1) (n - kh)) by (change (10 ^ 9) with 1000000000; nia).
      rewrite andb_false_r.
      replace (sh - 1 + 1) with sh by lia.
      rewrite (cand_accept sh (n - kh)) by (assumption || lia).
      destruct (Z.eqb_spec sh (10 ^ kh)); [lia|reflexivity].
  - pose proof (lo_range (n - k) ltac:(lia)) as Hlo.
    change (10 ^ 9 - 1) with 999999999 in Hlo.
    set (lo := scaled_floor m (- j) (- (n - k))) in *.
    rewrite (cand_reject lo (n - k))
      by (try apply not_multiple; change (10 ^ 9) with 1000000000; lia).
    rewrite (cand_reject (lo + 1) (n - k))
      by (try apply not_multiple; change (10 ^ 9) with 1000000000; lia).
    rewrite andb_false_r.
    apply IH; lia.
Qed.

Lemma cmp_decimal_one (n' : Z) :
  cmp_decimal m (- j) 1 n' = (m * 10 ^ Z.max (- n') 0 ?= 10 ^ Z.max n' 0 * U).
Proof.
  unfold cmp_decimal. rewrite (Z.max_r (- j) 0), Z.opp_involutive, (Z.max_l j 0) by lia.
  change (2 ^ 0) with 1. rewrite Z.mul_1_r, Z.mul_1_l. reflexivity.
Qed.

Lemma magnitude : 10 ^ (n - 1) * U <= m < 10 ^ n * U.
Proof.
  destruct (hundredths_shape h Hh) as (Hn & _ & _ & _ & _ & H10).
  pose proof U_large as HU. change (2 ^ 41) with 2199023255552 in HU.
  split.
  - apply m_lower; [apply Z.pow_nonneg; lia|].
    replace (n + 1) with (2 + (n - 1)) in H10 by lia.
    rewrite (Z.pow_add_r 10 2 (n - 1)) in H10 by lia. change (10 ^ 2) with 100 in H10. lia.
  - replace (n + 2) with (2 + n) in H10 by lia.
    rewrite (Z.pow_add_r 10 2 n) in H10 by lia. change (10 ^ 2) with 100 in H10.
    assert (0 < 10 ^ n) by (apply Z.pow_pos_nonneg; lia).
    set (T := 10 ^ n) in *.
    assert (h * U <= (100 * T - 1) * U) by (apply Z.mul_le_mono_nonneg_r; lia). lia.
Qed.

Lemma dec_exponent_search (f : nat) :
  forall n0 : Z, n0 <= n -> (Z.to_nat (n - n0) < f)%nat -> dec_exponent f m (- j) n0 = n.
Proof.
  destruct (hundredths_shape h Hh) as (Hn & _).
  pose proof magnitude as [Hlo Hhi].
  pose proof U_large as HU. change (2 ^ 41) with 2199023255552 in HU.
  induction f as [|f IH]; intros n0 Hn0 Hf; [lia|].
  cbn [dec_exponent]. rewrite cmp_decimal_one.
  destruct (Z.eq_dec n0 n) as [->|Hne].
  - rewrite (Z.max_r (- n) 0), (Z.max_l n 0) by lia. change (10 ^ 0) with 1.
    rewrite Z.mul_1_r. apply Z.compare_lt_iff in Hhi. rewrite Hhi. reflexivity.
  - assert (Hge : 10 ^ Z.max n0 0 * U <= m * 10 ^ Z.max (- n0) 0).
    { assert (1 <= 10 ^ Z.max (- n0) 0) by (apply Z.lt_pred_le, Z.pow_pos_nonneg; lia).
      assert (10 ^ Z.max n0 0 <= 10 ^ (n - 1)) by (apply Z.pow_le_mono_r; lia).
      assert (0 < 10 ^ Z.max n0 0) by (apply Z.pow_pos_nonneg; lia).
      set (A := 10 ^ Z.max n0 0) in *. set (B := 10 ^ Z.max (- n0) 0) in *.
      set (T := 10 ^ (n - 1)) in *. nia. }
    destruct (Z.compare_spec (m * 10 ^ Z.max (- n0) 0) (10 ^ Z.max n0 0 * U));
      try lia; apply IH; lia.
Qed.

Lemma decimal_exponent_eq : decimal_exponent m (- j) = n.
Proof.
  destruct (hundredths_shape h Hh) as (Hn & _ & _ & _ & _ & H10).
  unfold decimal_exponent.
  assert (Hl : Z.log2 m = 52) by (apply Z.log2_unique; [lia|exact Hm]).
  rewrite Hl.
  assert (Hj' : n = 1 -> 43 <= j).
  { intros E1. rewrite E1 in H10. change (10 ^ (1 + 2)) with 1000 in H10.
    destruct (Z.le_gt_cases 43 j) as [|Hlt]; [assumption|exfalso].
    assert (HU : U <= 2 ^ 42) by (apply Z.pow_le_mono_r; lia).
    change (2 ^ 52) with 4503599627370496 in Hm.
    change (2 ^ 42) with 4398046511104 in HU.
    assert (0 < U) by (apply Z.pow_pos_nonneg; lia).
    assert (h * U <= 1000 * U) by (apply Z.mul_le_mono_nonneg_r; lia). lia. }
  apply dec_exponent_search; Z.to_euclidean_division_equations; lia.
Qed.

Lemma shortest_digits_eq : shortest_digits m (- j) = (n, kh, sh).
Proof.
  destruct (hundredths_shape h Hh) as (Hn & Hkh & _).
  unfold shortest_digits. rewrite decimal_exponent_eq.
  apply (shortest_loop (Z.to_nat (kh - 1))); lia.
Qed.

End Hundredths.

(** The digits Number::toString finds for a count of hundredths, divided by
    100 as a Number would be. *)
Lemma toString_hundredths (h : Z) :
  100 <= h <= 102400 ->
  toString (round_pos h 100) = layout (n_of h) (k_of h) (s_of h).
Proof.
  intros Hh.
  destruct (round_pos_spec h 100) as (m & e & E & Hm & He & B & Hr);
    [lia | lia | change (2 ^ 52) with 4503599627370496; lia |].
  change (Z.log2 100) with 6 in Hr.
  assert (6 <= Z.log2 h) by (change 6 with (Z.log2 100); apply Z.log2_le_mono; lia).
  assert (Z.log2 h <= 16) by (change 16 with (Z.log2 102400); apply Z.log2_le_mono; lia).
  set (j := - e). assert (Ee : e = - j) by lia.
  rewrite E, Ee.
  assert (Hj : 41 <= j <= 53) by lia.
  assert (B' : 2 * Z.abs (h * 2 ^ j - m * 100) <= 100) by exact B.
  rewrite Ee in E.
  pose proof (shortest_digits_eq h m j Hh Hm Hj B' E) as S.
  unfold toString. destruct m as [|p|p]; try lia.
  unfold toString_pos. rewrite S. reflexivity.
Qed.

Lemma append_cons (c : ascii) (a b : string) : String c a +:+ b = String c (a +:+ b).
Proof. reflexivity. Qed.

Lemma append_nil_l (b : string) : EmptyString +:+ b = b.
Proof. reflexivity. Qed.

Lemma append_nil_r (s : string) : s +:+ EmptyString = s.
Proof.
  induction s as [|c s IH]; [reflexivity|]. rewrite append_cons, IH. reflexivity.
Qed.

Lemma append_assoc (a b c : string) : (a +:+ b) +:+ c = a +:+ (b +:+ c).
Proof.
  induction a as [|x a IH]; [reflexivity|]. rewrite !append_cons, IH. reflexivity.
Qed.

Lemma digits_acc (k : nat) : forall (s : Z) (acc : string),
  digits k s acc = digits k s EmptyString +:+ acc.
Proof.
  induction k as [|k IH]; intros s acc; cbn [digits]; [reflexivity|].
  rewrite (IH _ (String _ acc)), (IH _ (String _ EmptyString)).
  rewrite append_assoc, append_cons, append_nil_l. reflexivity.
Qed.

Lemma length_digits (k : nat) : forall (s : Z) (acc : string),
  String.length (digits k s acc) = (k + String.length acc)%nat.
Proof.
  induction k as [|k IH]; intros s acc; cbn [digits]; [reflexivity|].
  rewrite IH. cbn [String.length]. lia.
Qed.

Lemma substring_app_l (a b : string) :
  substring 0 (String.length a) (a +:+ b) = a.
Proof.
  induction a as [|c a IH].
  - rewrite append_nil_l. destruct b; reflexivity.
  - rewrite append_cons. cbn [String.length substring]. rewrite IH. reflexivity.
Qed.

Lemma substring_app_r (a b : string) (n : nat) :
  substring (String.length a) n (a +:+ b) = substring 0 n b.
Proof.
  induction a as [|c a IH]; [reflexivity|].
  rewrite append_cons. cbn [String.length substring]. exact IH.
Qed.

Lemma integer_ok_all : all_below 11 0 integer_ok = true.
Proof. vm_compute. reflexivity. Qed.

Lemma integer_facts (ip : Z) :
  1 <= ip <= 1024 ->
  decimal ip = digits (Z.to_nat (n_of (100 * ip))) ip EmptyString /\
  layout (n_of (100 * ip)) (k_of (100 * ip)) (s_of (100 * ip)) = decimal ip.
Proof.
  intros H.
  pose proof (all_below_spec 11 0 integer_ok integer_ok_all ip) as A.
  change (2 ^ Z.of_nat 11) with 2048 in A. specialize (A ltac:(lia)).
  unfold integer_ok in A.
  destruct (Z.leb_spec 1 ip); [|lia]. destruct (Z.leb_spec ip 1024); [|lia].
  cbn [andb] in A. apply andb_true_iff in A as [A1 A2].
  apply String.eqb_eq in A1, A2. split; assumption.
Qed.

Lemma n_of_hundreds (h : Z) : n_of (100 * (h / 100)) = n_of h.
Proof.
  unfold n_of.
  destruct (Z.ltb_spec h 1000), (Z.ltb_spec (100 * (h / 100)) 1000);
    try reflexivity; try (exfalso; Z.to_euclidean_division_equations; lia);
  destruct (Z.ltb_spec h 10000), (Z.ltb_spec (100 * (h / 100)) 10000);
    try reflexivity; try (exfalso; Z.to_euclidean_division_equations; lia);
  destruct (Z.ltb_spec h 100000), (Z.ltb_spec (100 * (h / 100)) 100000);
    try reflexivity; try (exfalso; Z.to_euclidean_division_equations; lia).
Qed.

(** What the digits of a count of hundredths are laid out as. *)
Lemma layout_hundredths (h : Z) :
  100 <= h <= 102400 ->
  layout (n_of h) (k_of h) (s_of h) = hundredths_string h.
Proof.
  intros Hh.
  assert (Hip : 1 <= h / 100 <= 1024) by (Z.to_euclidean_division_equations; lia).
  destruct (integer_facts (h / 100) Hip) as [Hdec Hint].
  rewrite n_of_hundreds in Hdec.
  assert (Hn : 1 <= n_of h <= 4).
  { unfold n_of. destruct (h <? 1000), (h <? 10000), (h <? 100000); lia. }
  unfold hundredths_string.
  destruct (Z.eqb_spec (h mod 100) 0) as [E100|E100].
  - (* an integer *)
    assert (Eh : 100 * (h / 100) = h) by (Z.to_euclidean_division_equations; lia).
    rewrite Eh in Hint. rewrite Hint. symmetry. apply append_nil_r.
  - rewrite Hdec.
    set (N := Z.to_nat (n_of h)).
    set (X := digits N (h / 100) EmptyString).
    assert (HX : String.length X = N).
    { unfold X. rewrite length_digits. cbn. lia. }
    destruct (Z.eqb_spec (h mod 10) 0) as [E10|E10].
    + (* one decimal *)
      assert (Etz : trailing_zeros h = 1).
      { unfold trailing_zeros.
        destruct (Z.eqb_spec (h mod 10) 0); [|lia].
        destruct (Z.eqb_spec (h mod 100) 0); [lia|]. reflexivity. }
      unfold k_of, s_of. rewrite Etz. change (10 ^ 1) with 10.
      unfold layout.
      replace (Z.to_nat (n_of h + 2 - 1)) with (S N) by lia.
      destruct (Z.leb_spec (n_of h + 2 - 1) (n_of h)); [lia|]. cbn [andb].
      destruct (Z.ltb_spec 0 (n_of h)); [|lia].
      destruct (Z.leb_spec (n_of h) 21); [|lia]. cbn [andb].
      cbn [digits]. rewrite digits_acc.
      replace (h / 10 / 10) with (h / 100) by (Z.to_euclidean_division_equations; lia).
      replace (h / 10 mod 10) with (h mod 100 / 10) by (Z.to_euclidean_division_equations; lia).
      fold X. fold N.
      replace (Z.to_nat (n_of h + 2 - 1 - n_of h)) with 1%nat by lia.
      rewrite <- HX at 1 2. rewrite substring_app_l, substring_app_r. reflexivity.
    + (* two decimals *)
      assert (Etz : trailing_zeros h = 0).
      { unfold trailing_zeros. destruct (Z.eqb_spec (h mod 10) 0); [lia|]. reflexivity. }
      unfold k_of, s_of. rewrite Etz. change (10 ^ 0) with 1. rewrite Z.div_1_r.
      unfold layout.
      replace (Z.to_nat (n_of h + 2 - 0)) with (S (S N)) by lia.
      destruct (Z.leb_spec (n_of h + 2 - 0) (n_of h)); [lia|]. cbn [andb].
      destruct (Z.ltb_spec 0 (n_of h)); [|lia].
      destruct (Z.leb_spec (n_of h) 21); [|lia]. cbn [andb].
      cbn [digits]. rewrite digits_acc.
      replace (h / 10 / 10) with (h / 100) by (Z.to_euclidean_division_equations; lia).
      replace (h / 10 mod 10) with (h mod 100 / 10) by (Z.to_euclidean_division_equations; lia).
      fold X. fold N.
      replace (Z.to_nat (n_of h + 2 - 0 - n_of h)) with 2%nat by lia.
      rewrite <- HX at 1 2. rewrite substring_app_l, substring_app_r. reflexivity.
Qed.

(** ** formatFileSize *)

Lemma ilog1024_spec (b : Z) :
  0 < b -> 0 <= ilog1024 b /\ 1024 ^ ilog1024 b <= b < 1024 ^ (ilog1024 b + 1).
Proof.
  intros Hb. unfold ilog1024.
  destruct (Z.log2_spec b Hb) as [L U].
  pose proof (Z.log2_nonneg b) as Hl.
  set (l := Z.log2 b) in *.
  assert (Hq : 0 <= l / 10) by (apply Z.div_pos; lia).
  split; [exact Hq|].
  change 1024 with (2 ^ 10). rewrite <- !Z.pow_mul_r by lia.
  split.
  - apply Z.le_trans with (2 ^ l); [|exact L].
    apply Z.pow_le_mono_r; [lia|]. Z.to_euclidean_division_equations; lia.
  - apply Z.lt_le_trans with (2 ^ Z.succ l); [exact U|].
    apply Z.pow_le_mono_r; [lia|]. Z.to_euclidean_division_equations; lia.
Qed.

Lemma ilog1024_small (b : Z) : 0 < b < 1024 ^ 4 -> 0 <= ilog1024 b <= 3.
Proof.
  intros Hb. unfold ilog1024.
  assert (Z.log2 b < 40) by (apply Z.log2_lt_pow2; [lia|exact (proj2 Hb)]).
  pose proof (Z.log2_nonneg b).
  Z.to_euclidean_division_equations; lia.
Qed.

Lemma ilog1024_bound (b : Z) : 0 < b -> 100 * b < 2 ^ 53 -> 0 <= ilog1024 b <= 4.
Proof.
  intros Hb H100. unfold ilog1024.
  assert (Z.log2 b < 47).
  { apply Z.log2_lt_pow2; [lia|].
    change (2 ^ 53) with 9007199254740992 in H100. change (2 ^ 47) with 140737488355328. lia. }
  pose proof (Z.log2_nonneg b).
  Z.to_euclidean_division_equations; lia.
Qed.

Ltac pow1024 :=
  repeat match goal with
         | H : context [1024 ^ ?x] |- _ =>
             let v := eval vm_compute in (1024 ^ x) in change (1024 ^ x) with v in H
         | |- context [1024 ^ ?x] =>
             let v := eval vm_compute in (1024 ^ x) in change (1024 ^ x) with v
         end.

(** The Number the return expression of [formatFileSize] converts to a
    string, for a byte count [b] and the unit index [i]: every operation
    before the last division is exact. *)
Lemma scaled_value (b i : Z) :
  0 <= i <= 4 -> 1024 ^ i <= b < 1024 ^ (i + 1) -> 100 * b < 2 ^ 53 ->
  Num_div (Math_round (Num_mul (Num_div (of_Z b) (of_Z (1024 ^ i))) (of_Z 100))) (of_Z 100)
  = round_pos ((200 * b + 1024 ^ i) / (2 * 1024 ^ i)) 100
  /\ 100 <= (200 * b + 1024 ^ i) / (2 * 1024 ^ i) <= 102400.
Proof.
  intros Hi Hb H100.
  assert (Hcases : i = 0 \/ i = 1 \/ i = 2 \/ i = 3 \/ i = 4) by lia.
  assert (Hpos : 0 < b).
  { assert (0 < 1024 ^ i) by (apply Z.pow_pos_nonneg; lia). lia. }
  assert (Hb53 : 0 < b < 2 ^ 53) by lia.
  assert (Hp : of_Z (1024 ^ i) = Fin (2 ^ 52) (10 * i - 52)).
  { destruct Hcases as [->|[->|[->|[->| ->]]]]; reflexivity. }
  rewrite Hp, (of_Z_dyadic b Hb53), Num_div_dyadic_pow2 by exact Hb53.
  rewrite (of_Z_dyadic 100) by (change (2 ^ 53) with 9007199254740992; lia).
  rewrite Num_mul_dyadic by lia.
  rewrite Math_round_dyadic by lia.
  replace (0 + (10 * i - 52) + 52 + 0) with (10 * i) by lia.
  replace (2 ^ (10 * i)) with (1024 ^ i)
    by (change 1024 with (2 ^ 10); rewrite <- Z.pow_mul_r by lia; reflexivity).
  replace (2 ^ (10 * i + 1)) with (2 * 1024 ^ i)
    by (rewrite Z.pow_add_r by lia; change 1024 with (2 ^ 10);
        rewrite <- Z.pow_mul_r by lia; change (2 ^ 1) with 2; lia).
  replace (2 * (b * 100)) with (200 * b) by lia.
  assert (Hh : 100 <= (200 * b + 1024 ^ i) / (2 * 1024 ^ i) <= 102400).
  { destruct Hcases as [->|[->|[->|[->| ->]]]]; pow1024;
      Z.to_euclidean_division_equations; lia. }
  split; [|exact Hh].
  set (hh := (200 * b + 1024 ^ i) / (2 * 1024 ^ i)) in *.
  rewrite <- (of_Z_dyadic 100) by (change (2 ^ 53) with 9007199254740992; lia).
  apply Num_div_of_Z;
    change (2 ^ 53) with 9007199254740992; change (2 ^ 52) with 4503599627370496; lia.
Qed.

Lemma of_Z_not_zero (b : Z) : 0 < b < 2 ^ 53 -> Number_eqb (of_Z b) (of_Z 0) = false.
Proof.
  intros Hb. rewrite of_Z_dyadic by exact Hb. unfold dyadic.
  pose proof (dyadic_significand b Hb) as Hm.
  change (of_Z 0) with (Fin 0 0). cbn [Number_eqb].
  destruct (Z.eqb_spec (b * 2 ^ (52 - Z.log2 b)) 0); [lia|reflexivity].
Qed.

(** [formatFileSize] on a positive byte count whose hundredfold is below
    2^53, on a host that is exact there. *)
Lemma formatFileSize_exact (h : Host) (b : Z) :
  0 < b -> 100 * b < 2 ^ 53 -> host_exact h b ->
  formatFileSize h (of_Z b)
  = hundredths_string ((200 * b + 1024 ^ ilog1024 b) / (2 * 1024 ^ ilog1024 b))
    +:+ " " +:+ string_of_element (sizes !! Z.to_nat (ilog1024 b)).
Proof.
  intros Hb H100 [Hlog Hpow].
  pose proof (ilog1024_bound b Hb H100) as Hi.
  destruct (ilog1024_spec b Hb) as [_ Hr].
  unfold formatFileSize.
  rewrite of_Z_not_zero by lia.
  cbv zeta. rewrite Hlog, Hpow.
  set (i := ilog1024 b) in *.
  destruct (scaled_value b i Hi Hr H100) as [E Hh]. rewrite E.
  rewrite toString_hundredths, layout_hundredths by exact Hh.
  do 2 f_equal.
  assert (Hcases : i = 0 \/ i = 1 \/ i = 2 \/ i = 3 \/ i = 4) by lia.
  destruct Hcases as [->|[->|[->|[->| ->]]]]; reflexivity.
Qed.

Lemma formatFileSize_eq (h : Host) (b : Z) :
  0 < b < 1024 ^ 4 -> host_exact h b ->
  formatFileSize h (of_Z b)
  = hundredths_string ((200 * b + 1024 ^ ilog1024 b) / (2 * 1024 ^ ilog1024 b))
    +:+ " " +:+ string_of_element (sizes !! Z.to_nat (ilog1024 b)).
Proof.
  intros Hb Hh. apply formatFileSize_exact; [lia| |exact Hh].
  change (1024 ^ 4) with 1099511627776 in Hb. change (2 ^ 53) with 9007199254740992. lia.
Qed.

Lemma includes_In (a : list string) (x : string) : includes a x = true <-> In x a.
Proof.
  unfold includes. rewrite existsb_exists. split.
  - intros (y & Hy & E). apply String.eqb_eq in E. subst. exact Hy.
  - intros H. exists x. split; [exact H|apply String.eqb_refl].
Qed.

(** C1.  For every file descriptor, [validateFile] reports the type error when
    the type is not in the allow-list, whatever the size; when the type is
    allowed it reports the size error for a size above 500 * 1024 * 1024
    bytes and accepts the file otherwise.  The type is checked first, so a
    file that is both of a wrong type and too large gets the type error. *)
Theorem validateFile_spec (file : File) :
  (~ In (type file) allowedTypes ->
   validateFile file = Invalid "Invalid file type. Please upload an image or video.")
  /\ (In (type file) allowedTypes -> size file > 500 * 1024 * 1024 ->
      validateFile file = Invalid "File size exceeds 500MB limit.")
  /\ (In (type file) allowedTypes -> size file <= 500 * 1024 * 1024 ->
      validateFile file = Valid).
Proof.
  unfold validateFile, Invalid, Valid, maxSize.
  destruct (includes allowedTypes (type file)) eqn:E; cbn [negb].
  - apply includes_In in E.
    split; [intros H; contradiction|].
    split; intros _ Hs.
    + destruct (Z.gtb_spec (size file) (500 * 1024 * 1024)); [reflexivity|lia].
    + destruct (Z.gtb_spec (size file) (500 * 1024 * 1024)); [lia|reflexivity].
  - assert (Hn : ~ In (type file) allowedTypes).
    { intros H. apply includes_In in H. congruence. }
    split; [reflexivity|]. split; intros H; contradiction.
Qed.

Lemma validateFile_spec_witness :
  validateFile {| type := "text/plain"; size := 600 * 1024 * 1024 |}
  = Invalid "Invalid file type. Please upload an image or video."
  /\ validateFile {| type := "image/png"; size := 600 * 1024 * 1024 |}
     = Invalid "File size exceeds 500MB limit."
  /\ validateFile {| type := "image/png"; size := 1000 |} = Valid.
Proof.
  split; [|split].
  - apply (proj1 (validateFile_spec {| type := "text/plain"; size := 600 * 1024 * 1024 |})).
    cbn. intros H. repeat (destruct H as [H|H]; [discriminate H|]). exact H.
  - apply (proj1 (proj2 (validateFile_spec {| type := "image/png"; size := 600 * 1024 * 1024 |}))).
    + cbn. right. left. reflexivity.
    + cbn. lia.
  - apply (proj2 (proj2 (validateFile_spec {| type := "image/png"; size := 1000 |}))).
    + cbn. right. left. reflexivity.
    + cbn. lia.
Defined.

(** C10.  A file of an allowed type whose size is exactly 500 * 1024 * 1024
    bytes is accepted: the comparison with the ceiling is strict. *)
Theorem validateFile_boundary (file : File) :
  In (type file) allowedTypes -> size file = 500 * 1024 * 1024 ->
  validateFile file = Valid.
Proof.
  intros Ht Hs. unfold validateFile, Valid, maxSize.
  apply includes_In in Ht. rewrite Ht, Hs. reflexivity.
Qed.

Lemma validateFile_boundary_witness :
  validateFile {| type := "video/mp4"; size := 524288000 |} = Valid.
Proof.
  apply validateFile_boundary.
  - cbn. do 3 right. left. reflexivity.
  - reflexivity.
Defined.

(** C2.  [formatFileSize] of 0 is the literal "0 Bytes", on every host: the
    result does not depend on the host's logarithm. *)
Theorem formatFileSize_zero (h : Host) : formatFileSize h (of_Z 0) = "0 Bytes"%string.
Proof. reflexivity. Qed.

(** C3.  On a host that is exact at these byte counts, [formatFileSize] of
    1024 is "1 KB", of 1536 is "1.5 KB" and of 1048576 is "1 MB". *)
Theorem formatFileSize_examples (h : Host) :
  host_exact h 1024 -> host_exact h 1536 -> host_exact h 1048576 ->
  formatFileSize h (of_Z 1024) = "1 KB"%string
  /\ formatFileSize h (of_Z 1536) = "1.5 KB"%string
  /\ formatFileSize h (of_Z 1048576) = "1 MB"%string.
Proof.
  intros H1 H2 H3.
  rewrite !formatFileSize_eq by (assumption || (change (1024 ^ 4) with 1099511627776; lia)).
  repeat split; vm_compute; reflexivity.
Qed.

Lemma formatFileSize_examples_witness :
  formatFileSize Reference.host (of_Z 1024) = "1 KB"%string
  /\ formatFileSize Reference.host (of_Z 1536) = "1.5 KB"%string
  /\ formatFileSize Reference.host (of_Z 1048576) = "1 MB"%string.
Proof.
  apply formatFileSize_examples.
  - split; vm_compute; reflexivity.
  - split; vm_compute; reflexivity.
  - split; vm_compute; reflexivity.
Defined.

Lemma small_ok_all : all_below 10 0 small_ok = true.
Proof. vm_compute. reflexivity. Qed.

Lemma decimal_value_small (b : Z) : 0 <= b < 1024 -> decimal_value (decimal b) = Some b.
Proof.
  intros Hb.
  pose proof (all_below_spec 10 0 small_ok small_ok_all b) as A.
  change (2 ^ Z.of_nat 10) with 1024 in A. specialize (A ltac:(lia)).
  unfold small_ok in A.
  destruct (Z.leb_spec 0 b); [|lia]. destruct (Z.ltb_spec b 1024); [|lia].
  cbn [andb] in A.
  destruct (decimal_value (decimal b)) as [v|]; [|discriminate].
  apply Z.eqb_eq in A. subst. reflexivity.
Qed.

(** C4.  For every byte count [0 <= b < 1024], on a host that is exact at
    [b], [formatFileSize] gives a string that ends in " Bytes" and whose
    prefix is a decimal numeral of value [b]. *)
Theorem formatFileSize_bytes (h : Host) (b : Z) :
  0 <= b < 1024 -> (0 < b -> host_exact h b) ->
  exists prefix : string,
    formatFileSize h (of_Z b) = prefix +:+ " Bytes" /\ decimal_value prefix = Some b.
Proof.
  intros Hb Hh. exists (decimal b). split; [|apply decimal_value_small; exact Hb].
  destruct (Z.eq_dec b 0) as [->|Hne]; [reflexivity|].
  rewrite formatFileSize_eq
    by (try apply Hh; change (1024 ^ 4) with 1099511627776; lia).
  assert (Hi : ilog1024 b = 0).
  { unfold ilog1024.
    assert (Z.log2 b < 10) by (apply Z.log2_lt_pow2; [lia|change (2 ^ 10) with 1024; lia]).
    pose proof (Z.log2_nonneg b). Z.to_euclidean_division_equations; lia. }
  rewrite Hi. change (1024 ^ 0) with 1. change (sizes !! Z.to_nat 0) with (Some "Bytes"%string).
  cbn [string_of_element].
  replace ((200 * b + 1) / (2 * 1)) with (100 * b) by (Z.to_euclidean_division_equations; lia).
  unfold hundredths_string.
  replace (100 * b / 100) with b by (Z.to_euclidean_division_equations; lia).
  replace ((100 * b) mod 100) with 0 by (Z.to_euclidean_division_equations; lia).
  change (0 =? 0) with true. cbv iota. rewrite append_nil_r. reflexivity.
Qed.

Lemma formatFileSize_bytes_witness :
  exists prefix : string,
    formatFileSize Reference.host (of_Z 1023) = prefix +:+ " Bytes"
    /\ decimal_value prefix = Some 1023.
Proof.
  apply formatFileSize_bytes; [lia|].
  intros _. split; vm_compute; reflexivity.
Defined.

(** ** The unit index *)

Lemma nearest_even_mono (a d a' d' : Z) :
  0 < d -> 0 < d' -> 0 <= a -> a * d' <= a' * d ->
  nearest_even a d <= nearest_even a' d'.
Proof.
  intros Hd Hd' Ha Hle.
  destruct (Z.eq_dec (a * d') (a' * d)) as [E|NE].
  { rewrite (nearest_even_cross a d a' d') by assumption. lia. }
  assert (Hlt : a * d' < a' * d) by lia. clear Hle NE.
  assert (Ha' : 0 <= a') by nia.
  unfold nearest_even.
  pose proof (Z.div_mod a d ltac:(lia)) as E1.
  pose proof (Z.mod_pos_bound a d Hd) as B1.
  pose proof (Z.div_mod a' d' ltac:(lia)) as E2.
  pose proof (Z.mod_pos_bound a' d' Hd') as B2.
  set (f := a / d) in *. set (f' := a' / d') in *.
  set (r := a mod d) in *. set (r' := a' mod d') in *.
  clearbody f f' r r'.
  assert (Hf : f <= f').
  { assert (f * d * d' <= a * d') by nia.
    assert (a' * d < (f' + 1) * d' * d) by nia.
    assert (f * (d * d') < (f' + 1) * (d * d')) by nia.
    assert (0 < d * d') by nia.
    assert (f < f' + 1) by (apply Z.mul_lt_mono_pos_r with (d * d'); lia).
    lia. }
  assert (Hres : forall x y, f <= x <= f + 1 -> f' <= y <= f' + 1 ->
                             (f = f' -> x = f + 1 -> y = f' + 1) -> x <= y) by (intros; lia).
  apply Hres.
  - destruct (2 * r <? d); [lia|]. destruct (d <? 2 * r); [lia|]. destruct (Z.even f); lia.
  - destruct (2 * r' <? d'); [lia|]. destruct (d' <? 2 * r'); [lia|]. destruct (Z.even f'); lia.
  - intros Ef. subst f'.
    assert (Hr : r * d' < r' * d) by nia.
    intros Hx.
    assert (H2r : d <= 2 * r).
    { destruct (Z.ltb_spec (2 * r) d); [lia|]. assumption. }
    assert (H2r' : d' < 2 * r') by nia.
    destruct (Z.ltb_spec (2 * r') d'); [lia|].
    destruct (Z.ltb_spec d' (2 * r')); [reflexivity|lia].
Qed.

Lemma Num_le_same_exponent (m m' e : Z) : m <= m' -> Num_le (Fin m e) (Fin m' e).
Proof.
  intros H. cbn [Num_le]. rewrite Z.sub_diag. change (Z.max 0 0) with 0.
  change (2 ^ 0) with 1. lia.
Qed.

Lemma Num_le_lower_exponent (m m' e e' : Z) :
  m < 2 ^ 53 -> 2 ^ 52 <= m' -> e < e' -> Num_le (Fin m e) (Fin m' e').
Proof.
  intros Hm Hm' He. cbn [Num_le].
  rewrite (Z.max_r (e - e') 0), (Z.max_l (e' - e) 0) by lia.
  change (2 ^ 0) with 1. rewrite Z.mul_1_r.
  assert (P : 2 ^ 1 <= 2 ^ (e' - e)) by (apply Z.pow_le_mono_r; lia).
  change (2 ^ 1) with 2 in P. change (2 ^ 53) with (2 * 2 ^ 52) in Hm.
  apply Z.lt_le_incl. apply Z.lt_le_trans with (2 * 2 ^ 52); [exact Hm|].
  rewrite (Z.mul_comm 2). apply Z.mul_le_mono_nonneg; lia.
Qed.

(** Rounding is monotone. *)
Lemma round_pos_mono (N D N' D' : Z) :
  0 < N -> 0 < D -> 0 < N' -> 0 < D' -> N' < 2 ^ 52 * D' -> N * D' <= N' * D ->
  Num_le (round_pos N D) (round_pos N' D').
Proof.
  intros HN HD HN' HD' Hlt' Hle.
  assert (Hlt : N < 2 ^ 52 * D).
  { assert (N * D' < 2 ^ 52 * D * D') by nia.
    apply Z.mul_lt_mono_pos_r with D'; lia. }
  rewrite (round_pos_small N D), (round_pos_small N' D') by assumption.
  destruct (scaling_spec N D HN HD Hlt) as (Ht & [L U] & _).
  destruct (scaling_spec N' D' HN' HD' Hlt') as (Ht' & [L' U'] & _).
  set (t := scaling N D) in *. set (t' := scaling N' D') in *.
  pose proof (pow2_pos t ltac:(lia)) as Hp. pose proof (pow2_pos t' ltac:(lia)) as Hp'.
  destruct (nearest_even_bounds (N * 2 ^ t) D HD ltac:(nia)) as [[B1 B2] _].
  destruct (nearest_even_bounds (N' * 2 ^ t') D' HD' ltac:(nia)) as [[B1' B2'] _].
  assert (F1 : 2 ^ 52 <= N * 2 ^ t / D) by (apply Z.div_le_lower_bound; lia).
  assert (F2 : N * 2 ^ t / D < 2 ^ 53) by (apply Z.div_lt_upper_bound; lia).
  assert (F1' : 2 ^ 52 <= N' * 2 ^ t' / D') by (apply Z.div_le_lower_bound; lia).
  assert (F2' : N' * 2 ^ t' / D' < 2 ^ 53) by (apply Z.div_lt_upper_bound; lia).
  destruct (Z.lt_trichotomy t t') as [H|[H|H]].
  - exfalso.
    assert (P : 2 ^ (t + 1) <= 2 ^ t') by (apply Z.pow_le_mono_r; lia).
    rewrite pow2_succ in P by lia.
    set (p := 2 ^ t) in *. set (p' := 2 ^ t') in *. clearbody p p'.
    assert (N' * (2 * p) <= N' * p') by (apply Z.mul_le_mono_nonneg_l; lia).
    change (2 ^ 53) with (2 * 2 ^ 52) in U'.
    assert (N' * p < 2 ^ 52 * D') by lia.
    assert (N * p * D' <= N' * p * D) by nia.
    assert (N' * p * D < 2 ^ 52 * D' * D) by nia.
    assert (2 ^ 52 * D * D' <= N * p * D') by nia.
    lia.
  - rewrite <- H in *.
    assert (M : nearest_even (N * 2 ^ t) D <= nearest_even (N' * 2 ^ t) D').
    { apply nearest_even_mono; try lia; nia. }
    set (m := nearest_even (N * 2 ^ t) D) in *.
    set (m' := nearest_even (N' * 2 ^ t) D') in *.
    destruct (Z.eqb_spec m (2 ^ 53)) as [Em|Em];
      destruct (Z.eqb_spec m' (2 ^ 53)) as [Em'|Em'].
    + apply Num_le_same_exponent. lia.
    + lia.
    + apply Num_le_lower_exponent; lia.
    + apply Num_le_same_exponent. lia.
  - set (m := nearest_even (N * 2 ^ t) D) in *.
    set (m' := nearest_even (N' * 2 ^ t') D') in *.
    destruct (Z.eqb_spec m (2 ^ 53)) as [Em|Em];
      destruct (Z.eqb_spec m' (2 ^ 53)) as [Em'|Em'].
    + apply Num_le_lower_exponent; lia.
    + destruct (Z.eq_dec (1 - t) (- t')) as [E|NE].
      * rewrite E. apply Num_le_same_exponent. lia.
      * apply Num_le_lower_exponent; lia.
    + apply Num_le_lower_exponent; lia.
    + apply Num_le_lower_exponent; lia.
Qed.

Lemma round64_mono (N D N' D' : Z) :
  0 <= N -> 0 < D -> 0 < D' -> N' < 2 ^ 52 * D' -> N * D' <= N' * D ->
  Num_le (round64 N D) (round64 N' D').
Proof.
  intros HN HD HD' Hlt Hle.
  assert (HN' : 0 <= N') by nia.
  destruct (Z.eq_dec N 0) as [->|HN0].
  - cbn [round64].
    destruct (Z.eq_dec N' 0) as [->|HN0'].
    + apply Num_le_same_exponent. lia.
    + rewrite round64_pos by lia.
      destruct (round_pos_spec N' D' ltac:(lia) HD' Hlt) as (m & e & -> & Hm & _).
      cbn [Num_le]. pose proof (pow2_pos (Z.max (e - 0) 0) ltac:(lia)). nia.
  - assert (0 < N') by nia.
    rewrite !round64_pos by lia. apply round_pos_mono; lia.
Qed.

Lemma pow2_balance (e1 e1' e0 : Z) :
  2 ^ Z.max (e1 - e0) 0 * 2 ^ Z.max (e0 - e1') 0 * 2 ^ Z.max (e1' - e1) 0
  = 2 ^ Z.max (e1' - e0) 0 * 2 ^ Z.max (e0 - e1) 0 * 2 ^ Z.max (e1 - e1') 0.
Proof. rewrite <- !Z.pow_add_r by lia. f_equal. lia. Qed.

Lemma Num_div_fraction (m1 e1 m0 e0 : Z) :
  0 < m0 ->
  Num_div (Fin m1 e1) (Fin m0 e0) = round64 (div_num m1 e1 e0) (div_den m0 e1 e0).
Proof.
  intros H0. unfold Num_div, div_num, div_den.
  destruct (Z.eqb_spec m0 0); [lia|].
  rewrite Z.sgn_pos, Z.abs_eq, Z.mul_1_l by lia. reflexivity.
Qed.

Lemma div_fraction_mono (m1 e1 m1' e1' m0 e0 : Z) :
  0 < m0 -> Num_le (Fin m1 e1) (Fin m1' e1') ->
  div_num m1 e1 e0 * div_den m0 e1' e0 <= div_num m1' e1' e0 * div_den m0 e1 e0.
Proof.
  intros H0 Hle. cbn [Num_le] in Hle. unfold div_num, div_den.
  pose proof (pow2_balance e1 e1' e0) as E.
  replace (- (e1' - e0)) with (e0 - e1') by lia.
  replace (- (e1 - e0)) with (e0 - e1) by lia.
  pose proof (pow2_pos (Z.max (e1 - e0) 0) ltac:(lia)).
  pose proof (pow2_pos (Z.max (e0 - e1') 0) ltac:(lia)).
  pose proof (pow2_pos (Z.max (e1' - e1) 0) ltac:(lia)).
  pose proof (pow2_pos (Z.max (e1' - e0) 0) ltac:(lia)).
  pose proof (pow2_pos (Z.max (e0 - e1) 0) ltac:(lia)).
  pose proof (pow2_pos (Z.max (e1 - e1') 0) ltac:(lia)).
  set (B := 2 ^ Z.max (e1 - e0) 0) in *. set (C' := 2 ^ Z.max (e0 - e1') 0) in *.
  set (A' := 2 ^ Z.max (e1' - e1) 0) in *. set (B' := 2 ^ Z.max (e1' - e0) 0) in *.
  set (C := 2 ^ Z.max (e0 - e1) 0) in *. set (A := 2 ^ Z.max (e1 - e1') 0) in *.
  clearbody A A' B B' C C'.
  assert (HX : 0 < B * C') by (apply Z.mul_pos_pos; lia).
  assert (HY : 0 < B' * C) by (apply Z.mul_pos_pos; lia).
  set (X := B * C') in *. set (Y := B' * C) in *.
  assert (E' : X * A' = Y * A) by (unfold X, Y; lia).
  assert (G : m1 * X <= m1' * Y).
  { apply Z.mul_le_mono_pos_r with A'; [lia|].
    replace (m1 * X * A') with (Y * (m1 * A)) by (rewrite <- Z.mul_assoc, E'; ring).
    replace (m1' * Y * A') with (Y * (m1' * A')) by ring.
    apply Z.mul_le_mono_nonneg_l; lia. }
  replace (m1 * B * (m0 * C')) with (m0 * (m1 * X)) by (unfold X; ring).
  replace (m1' * B' * (m0 * C)) with (m0 * (m1' * Y)) by (unfold Y; ring).
  apply Z.mul_le_mono_nonneg_l; lia.
Qed.

Lemma ifloor_mono (m e m' e' : Z) :
  e <= 0 -> e' <= 0 -> Num_le (Fin m e) (Fin m' e') ->
  ifloor (Fin m e) <= ifloor (Fin m' e').
Proof.
  intros He He' Hle. cbn [Num_le] in Hle. cbn [ifloor].
  pose proof (pow2_pos (- e) ltac:(lia)) as Hp.
  pose proof (pow2_pos (- e') ltac:(lia)) as Hp'.
  apply Z.div_le_lower_bound; [lia|].
  pose proof (Z.mul_div_le m (2 ^ (- e)) Hp) as F.
  set (f := m / 2 ^ (- e)) in *. clearbody f.
  destruct (Z.le_ge_cases e' e) as [C|C].
  - rewrite (Z.max_l (e - e') 0), (Z.max_r (e' - e) 0) in Hle by lia.
    change (2 ^ 0) with 1 in Hle. rewrite Z.mul_1_r in Hle.
    replace (- e') with (- e + (e - e')) by lia.
    rewrite Z.pow_add_r by lia.
    pose proof (pow2_pos (e - e') ltac:(lia)).
    apply Z.le_trans with (m * 2 ^ (e - e')); [|exact Hle].
    replace (2 ^ (- e) * 2 ^ (e - e') * f) with (2 ^ (- e) * f * 2 ^ (e - e')) by ring.
    apply Z.mul_le_mono_nonneg_r; lia.
  - rewrite (Z.max_r (e - e') 0), (Z.max_l (e' - e) 0) in Hle by lia.
    change (2 ^ 0) with 1 in Hle. rewrite Z.mul_1_r in Hle.
    pose proof (pow2_pos (e' - e) ltac:(lia)) as Hq.
    apply Z.mul_le_mono_pos_r with (2 ^ (e' - e)); [exact Hq|].
    apply Z.le_trans with m; [|exact Hle].
    replace (- e) with (- e' + (e' - e)) in F by lia.
    rewrite Z.pow_add_r in F by lia. lia.
Qed.

Lemma round64_shape (N D : Z) :
  0 <= N -> 0 < D -> N < 2 ^ 52 * D ->
  exists m e, round64 N D = Fin m e /\ e <= 0 /\ (m = 0 /\ e = 0 \/ 2 ^ 52 <= m < 2 ^ 53).
Proof.
  intros HN HD Hlt. destruct (Z.eq_dec N 0) as [->|HN0].
  - exists 0, 0. split; [reflexivity|]. split; [lia|]. left. split; reflexivity.
  - rewrite round64_pos by lia.
    destruct (round_pos_spec N D ltac:(lia) HD Hlt) as (m & e & -> & Hm & He & _).
    exists m, e. split; [reflexivity|]. split; [exact He|]. right. exact Hm.
Qed.

(** [Math.floor] of a rounded quotient below 2^52. *)
Lemma Math_floor_round64 (N D : Z) :
  0 <= N -> 0 < D -> N < 2 ^ 52 * D ->
  Math_floor (round64 N D) = of_Z (ifloor (round64 N D))
  /\ 0 <= ifloor (round64 N D) < 2 ^ 53.
Proof.
  intros HN HD Hlt.
  destruct (round64_shape N D HN HD Hlt) as (m & e & -> & He & Hm).
  cbn [ifloor Math_floor].
  destruct Hm as [[-> ->]|Hm].
  { split; [reflexivity|]. change (0 / 2 ^ (- 0)) with 0. split; [lia|reflexivity]. }
  pose proof (pow2_pos (- e) ltac:(lia)) as Hp.
  split.
  - destruct (Z.leb_spec 0 e) as [H0|H0]; [|reflexivity].
    assert (e = 0) by lia. subst e. change (2 ^ (- 0)) with 1. rewrite Z.div_1_r.
    rewrite of_Z_dyadic by lia. unfold dyadic.
    assert (El : Z.log2 m = 52) by (apply Z.log2_unique; [lia|exact Hm]).
    rewrite El. change (2 ^ (52 - 52)) with 1. rewrite Z.mul_1_r. reflexivity.
  - split; [apply Z.div_pos; lia|].
    apply Z.le_lt_trans with m; [|lia].
    apply Z.div_le_upper_bound; [lia|]. nia.
Qed.

Lemma of_Z_inj (a b : Z) :
  0 <= a < 2 ^ 53 -> 0 <= b < 2 ^ 53 -> of_Z a = of_Z b -> a = b.
Proof.
  intros Ha Hb E.
  destruct (Z.eq_dec a 0) as [->|Ha0]; destruct (Z.eq_dec b 0) as [->|Hb0]; try reflexivity.
  - rewrite (of_Z_dyadic b) in E by lia. unfold dyadic in E.
    pose proof (dyadic_significand b ltac:(lia)). change (of_Z 0) with (Fin 0 0) in E.
    injection E as E1 E2. lia.
  - rewrite (of_Z_dyadic a) in E by lia. unfold dyadic in E.
    pose proof (dyadic_significand a ltac:(lia)). change (of_Z 0) with (Fin 0 0) in E.
    injection E as E1 E2. lia.
  - rewrite (of_Z_dyadic a), (of_Z_dyadic b) in E by lia. unfold dyadic in E.
    injection E as E1 E2.
    assert (El : Z.log2 a = Z.log2 b) by lia. rewrite El in E1.
    assert (Hl2 : Z.log2 b < 53) by (apply Z.log2_lt_pow2; lia).
    pose proof (pow2_pos (52 - Z.log2 b) ltac:(lia)).
    apply Z.mul_cancel_r in E1; lia.
Qed.

(** A quotient of at least 2^52 has a non-negative exponent. *)
Lemma round_pos_large (N D : Z) :
  0 < N -> 0 < D -> 2 ^ 52 * D <= N ->
  exists m e, round_pos N D = Fin m e /\ 0 <= e.
Proof.
  intros HN HD Hge.
  assert (Hl : 52 + Z.log2 D <= Z.log2 N).
  { rewrite <- (Z.log2_mul_pow2 D 52) by lia.
    apply Z.log2_le_mono. lia. }
  unfold round_pos.
  set (t0 := 52 + Z.log2 D - Z.log2 N) in *.
  assert (Ht0 : t0 <= 0) by (unfold t0; lia).
  set (t := if N * 2 ^ Z.max t0 0 <? 2 ^ 52 * (D * 2 ^ Z.max (- t0) 0) then t0 + 1 else t0).
  assert (Ht : t <= 0).
  { unfold t. destruct (Z.ltb_spec (N * 2 ^ Z.max t0 0) (2 ^ 52 * (D * 2 ^ Z.max (- t0) 0))) as [Hb|Hb];
      [|lia].
    destruct (Z.eq_dec t0 0) as [E|]; [|lia].
    rewrite E in Hb. change (Z.max 0 0) with 0 in Hb. change (Z.max (- 0) 0) with 0 in Hb.
    change (2 ^ 0) with 1 in Hb. lia. }
  cbv zeta.
  match goal with |- context [if ?c then Fin (2 ^ 52) (1 - t) else Fin ?m (- t)] =>
    destruct c; [exists (2 ^ 52), (1 - t)|exists m, (- t)] end;
    (split; [reflexivity|lia]).
Qed.

Section Index.

Variable h : Host.
Hypothesis Hmono : log_monotone h.
Hypothesis Hbd : Forall (host_exact h) unit_boundaries.

Local Abbreviation L b := (Math_log h (of_Z b)).
Local Abbreviation Q b := (Num_div (Math_log h (of_Z b)) (Math_log h (of_Z 1024))).

Lemma log_shape (b : Z) :
  1 <= b < 1024 ^ 4 -> exists m e, L b = Fin m e /\ 0 <= m.
Proof.
  intros Hb. destruct Hmono as [H0 Hm].
  specialize (Hm 1 b ltac:(lia) ltac:(lia) ltac:(lia)).
  change (of_Z 0) with (Fin 0 0) in H0.
  destruct (Math_log h (of_Z 1)) as [| |m1 e1]; try contradiction.
  destruct (Math_log h (of_Z b)) as [| |m e]; try contradiction.
  exists m, e. split; [reflexivity|].
  cbn [Num_le] in H0, Hm.
  pose proof (pow2_pos (Z.max (e1 - 0) 0) ltac:(lia)).
  pose proof (pow2_pos (Z.max (e1 - e) 0) ltac:(lia)).
  pose proof (pow2_pos (Z.max (e - e1) 0) ltac:(lia)).
  assert (0 <= m1) by nia.
  assert (0 <= m1 * 2 ^ Z.max (e1 - e) 0) by (apply Z.mul_nonneg_nonneg; lia).
  nia.
Qed.

Lemma log_1024_shape : exists m0 e0, L 1024 = Fin m0 e0 /\ 0 < m0.
Proof.
  destruct (log_shape 1024 ltac:(change (1024 ^ 4) with 1099511627776; lia))
    as (m0 & e0 & E & H0).
  exists m0, e0. split; [exact E|].
  destruct (Z.eq_dec m0 0) as [->|]; [exfalso|lia].
  assert (H : host_exact h 1024).
  { pose proof Hbd as Hbs. unfold unit_boundaries in Hbs. rewrite !Forall_cons in Hbs. tauto. }
  destruct H as [H _]. rewrite E in H. discriminate H.
Qed.

Lemma quotient_below (b : Z) (m e m0 e0 : Z) :
  1 <= b < 1024 ^ 4 -> L b = Fin m e -> L 1024 = Fin m0 e0 -> 0 < m0 ->
  div_num m e e0 < 2 ^ 52 * div_den m0 e e0.
Proof.
  intros Hb E E0 H0.
  destruct (log_shape b Hb) as (m' & e' & E' & Hm). 
  rewrite E in E'. injection E' as <- <-.
  destruct (log_shape 1099511627775 ltac:(change (1024 ^ 4) with 1099511627776; lia))
    as (mx & ex & Ex & Hmx).
  assert (Hx : host_exact h 1099511627775).
  { pose proof Hbd as Hbs. unfold unit_boundaries in Hbs. rewrite !Forall_cons in Hbs. tauto. }
  destruct Hx as [Hx _]. rewrite Ex, E0, Num_div_fraction in Hx by exact H0.
  assert (Hdx : 0 < div_den m0 ex e0).
  { unfold div_den. apply Z.mul_pos_pos; [lia|apply pow2_pos; lia]. }
  assert (Hd : 0 < div_den m0 e e0).
  { unfold div_den. apply Z.mul_pos_pos; [lia|apply pow2_pos; lia]. }
  assert (Hnx : 0 <= div_num mx ex e0).
  { unfold div_num. apply Z.mul_nonneg_nonneg; [lia|]. pose proof (pow2_pos (Z.max (ex - e0) 0) ltac:(lia)). lia. }
  assert (Bx : div_num mx ex e0 < 2 ^ 52 * div_den m0 ex e0).
  { destruct (Z.lt_ge_cases (div_num mx ex e0) (2 ^ 52 * div_den m0 ex e0)) as [|Hge];
      [assumption|exfalso].
    rewrite round64_pos in Hx by lia.
    destruct (round_pos_large (div_num mx ex e0) (div_den m0 ex e0) ltac:(lia) Hdx Hge) as (mq & eq & Eq & Heq).
    rewrite Eq in Hx. cbn [Math_floor] in Hx.
    destruct (Z.leb_spec 0 eq); [|lia].
    change (ilog1024 1099511627775) with 3 in Hx.
    change (of_Z 3) with (Fin 6755399441055744 (-51)) in Hx.
    injection Hx as _ Hx. lia. }
  assert (Hle : Num_le (Fin m e) (Fin mx ex)).
  { destruct Hmono as [_ Hm']. rewrite <- E, <- Ex.
    apply Hm'; change (1024 ^ 4) with 1099511627776 in *; lia. }
  pose proof (div_fraction_mono m e mx ex m0 e0 H0 Hle) as F.
  set (N := div_num m e e0) in *. set (D := div_den m0 e e0) in *.
  set (Nx := div_num mx ex e0) in *. set (Dx := div_den m0 ex e0) in *.
  clearbody N D Nx Dx.
  assert (N * Dx < 2 ^ 52 * D * Dx).
  { apply Z.le_lt_trans with (Nx * D); [exact F|].
    replace (2 ^ 52 * D * Dx) with (2 ^ 52 * Dx * D) by ring.
    apply Z.mul_lt_mono_pos_r; lia. }
  apply Z.mul_lt_mono_pos_r with Dx; lia.
Qed.

(** The floored quotient is an integer that does not decrease with the
    byte count. *)
Lemma floor_quotient (b : Z) :
  1 <= b < 1024 ^ 4 ->
  Math_floor (Q b) = of_Z (ifloor (Q b)) /\ 0 <= ifloor (Q b) < 2 ^ 53.
Proof.
  intros Hb.
  destruct (log_shape b Hb) as (m & e & E & Hm).
  destruct log_1024_shape as (m0 & e0 & E0 & H0).
  pose proof (quotient_below b m e m0 e0 Hb E E0 H0) as B.
  rewrite E, E0, Num_div_fraction by exact H0.
  apply Math_floor_round64.
  - unfold div_num. apply Z.mul_nonneg_nonneg; [lia|].
    pose proof (pow2_pos (Z.max (e - e0) 0) ltac:(lia)). lia.
  - unfold div_den. apply Z.mul_pos_pos; [lia|apply pow2_pos; lia].
  - exact B.
Qed.

Lemma floor_quotient_mono (b b' : Z) :
  1 <= b -> b <= b' -> b' < 1024 ^ 4 -> ifloor (Q b) <= ifloor (Q b').
Proof.
  intros Hb Hbb Hb'.
  destruct (log_shape b ltac:(lia)) as (m & e & E & Hm).
  destruct (log_shape b' ltac:(lia)) as (m' & e' & E' & Hm').
  destruct log_1024_shape as (m0 & e0 & E0 & H0).
  pose proof (quotient_below b m e m0 e0 ltac:(lia) E E0 H0) as B.
  pose proof (quotient_below b' m' e' m0 e0 ltac:(lia) E' E0 H0) as B'.
  assert (Hle : Num_le (Fin m e) (Fin m' e')).
  { destruct Hmono as [_ Hm'']. rewrite <- E, <- E'. apply Hm''; lia. }
  pose proof (div_fraction_mono m e m' e' m0 e0 H0 Hle) as F.
  rewrite E, E', E0, !Num_div_fraction by exact H0.
  assert (Hd : 0 < div_den m0 e e0).
  { unfold div_den. apply Z.mul_pos_pos; [lia|apply pow2_pos; lia]. }
  assert (Hd' : 0 < div_den m0 e' e0).
  { unfold div_den. apply Z.mul_pos_pos; [lia|apply pow2_pos; lia]. }
  assert (Hn : 0 <= div_num m e e0).
  { unfold div_num. apply Z.mul_nonneg_nonneg; [lia|]. pose proof (pow2_pos (Z.max (e - e0) 0) ltac:(lia)). lia. }
  assert (Hn' : 0 <= div_num m' e' e0).
  { unfold div_num. apply Z.mul_nonneg_nonneg; [lia|]. pose proof (pow2_pos (Z.max (e' - e0) 0) ltac:(lia)). lia. }
  pose proof (round64_mono _ _ _ _ Hn Hd Hd' B' F) as M.
  destruct (round64_shape _ _ Hn Hd B) as (mq & eq & Eq & Heq & _).
  destruct (round64_shape _ _ Hn' Hd' B') as (mq' & eq' & Eq' & Heq' & _).
  rewrite Eq, Eq' in M |- *. apply ifloor_mono; assumption.
Qed.

Lemma floor_quotient_at (b j : Z) :
  1 <= b < 1024 ^ 4 -> 0 <= j < 2 ^ 53 -> Math_floor (Q b) = of_Z j -> ifloor (Q b) = j.
Proof.
  intros Hb Hj E. destruct (floor_quotient b Hb) as [F R].
  rewrite F in E. apply of_Z_inj; assumption.
Qed.

(** Exactness at the boundaries of the units extends to every byte count
    between them. *)
Lemma host_exact_between (b : Z) : 0 < b < 1024 ^ 4 -> host_exact h b.
Proof.
  intros Hb.
  pose proof (ilog1024_small b Hb) as Hi.
  destruct (ilog1024_spec b ltac:(lia)) as [_ Hr].
  pose proof Hbd as Hbs. unfold unit_boundaries in Hbs. rewrite !Forall_cons in Hbs.
  destruct Hbs as (B0 & B0' & B1 & B1' & B2 & B2' & B3 & B3' & _).
  assert (R53 : forall j, 0 <= j <= 3 -> 0 <= j < 2 ^ 53)
    by (intros; change (2 ^ 53) with 9007199254740992; lia).
  assert (Hends : forall lo hi j,
            0 <= j <= 3 -> 1 <= lo -> hi < 1024 ^ 4 -> lo <= b <= hi ->
            host_exact h lo -> host_exact h hi ->
            ilog1024 lo = j -> ilog1024 hi = j -> ilog1024 b = j -> host_exact h b).
  { intros lo hi j Hj Hlo Hhi Hin [Elo Plo] [Ehi _] Ilo Ihi Ib.
    rewrite Ilo in Elo, Plo. rewrite Ihi in Ehi.
    apply floor_quotient_at in Elo; [|lia|apply R53; exact Hj].
    apply floor_quotient_at in Ehi; [|lia|apply R53; exact Hj].
    pose proof (floor_quotient_mono lo b ltac:(lia) ltac:(lia) ltac:(lia)) as M1.
    pose proof (floor_quotient_mono b hi ltac:(lia) ltac:(lia) ltac:(lia)) as M2.
    destruct (floor_quotient b ltac:(lia)) as [F _].
    split.
    - rewrite Ib. rewrite F. f_equal. lia.
    - rewrite Ib. exact Plo. }
  assert (Hcases : ilog1024 b = 0 \/ ilog1024 b = 1 \/ ilog1024 b = 2 \/ ilog1024 b = 3) by lia.
  change (1024 ^ 4) with 1099511627776 in *.
  destruct Hcases as [E|[E|[E|E]]]; rewrite E in Hr.
  - change (1024 ^ 0) with 1 in Hr. change (1024 ^ (0 + 1)) with 1024 in Hr.
    apply (Hends 1 1023 0); try assumption; try reflexivity; lia.
  - change (1024 ^ 1) with 1024 in Hr. change (1024 ^ (1 + 1)) with 1048576 in Hr.
    apply (Hends 1024 1048575 1); try assumption; try reflexivity; lia.
  - change (1024 ^ 2) with 1048576 in Hr. change (1024 ^ (2 + 1)) with 1073741824 in Hr.
    apply (Hends 1048576 1073741823 2); try assumption; try reflexivity; lia.
  - change (1024 ^ 3) with 1073741824 in Hr. change (1024 ^ (3 + 1)) with 1099511627776 in Hr.
    apply (Hends 1073741824 1099511627775 3); try assumption; try reflexivity; lia.
Qed.

End Index.

(** ** The reference host *)

Lemma div_cross_mono (a d a' d' : Z) :
  0 < d -> 0 < d' -> a * d' <= a' * d -> a / d <= a' / d'.
Proof.
  intros Hd Hd' H. apply Z.div_le_lower_bound; [exact Hd'|].
  pose proof (Z.mul_div_le a d Hd) as F.
  set (f := a / d) in *. clearbody f.
  apply Z.mul_le_mono_pos_r with d; [exact Hd|].
  apply Z.le_trans with (a * d'); [|exact H].
  replace (d' * f * d) with (d * f * d') by ring.
  apply Z.mul_le_mono_nonneg_r; lia.
Qed.

Lemma scale_pos : 0 < Reference.scale.
Proof. reflexivity. Qed.

Lemma atanh_series_mono (n : nat) :
  forall z2 z2' pw pw' d : Z,
    0 <= z2 <= z2' -> 0 <= pw <= pw' -> 0 < d ->
    0 <= Reference.atanh_series n z2 pw d <= Reference.atanh_series n z2' pw' d.
Proof.
  induction n as [|n IH]; intros z2 z2' pw pw' d Hz Hp Hd; cbn [Reference.atanh_series]; [lia|].
  pose proof scale_pos as HS.
  assert (H1 : 0 <= pw / d <= pw' / d).
  { split; [apply Z.div_pos; lia|apply Z.div_le_mono; lia]. }
  assert (H2 : 0 <= pw * z2 / Reference.scale <= pw' * z2' / Reference.scale).
  { split.
    - apply Z.div_pos; [|exact HS]. apply Z.mul_nonneg_nonneg; lia.
    - apply Z.div_le_mono; [exact HS|]. apply Z.mul_le_mono_nonneg; lia. }
  specialize (IH z2 z2' _ _ (d + 2) Hz H2 ltac:(lia)). lia.
Qed.

Lemma atanh_fix_mono (z z' : Z) :
  0 <= z <= z' -> 0 <= Reference.atanh_fix z <= Reference.atanh_fix z'.
Proof.
  intros Hz. unfold Reference.atanh_fix. apply atanh_series_mono; [|exact Hz|lia].
  pose proof scale_pos as HS. split.
  - apply Z.div_pos; [|exact HS]. apply Z.mul_nonneg_nonneg; lia.
  - apply Z.div_le_mono; [exact HS|]. apply Z.mul_le_mono_nonneg; lia.
Qed.

Lemma atanh_arg_mono (m m' : Z) :
  2 ^ 52 <= m -> m <= m' -> 0 <= atanh_arg m <= atanh_arg m'.
Proof.
  intros Hm Hmm. unfold atanh_arg. pose proof scale_pos as HS.
  change (2 ^ 52) with 4503599627370496 in *.
  split.
  - apply Z.div_pos; [|lia]. apply Z.mul_nonneg_nonneg; lia.
  - apply div_cross_mono; try lia.
    set (c := 4503599627370496) in *.
    replace ((m - c) * Reference.scale * (m' + c))
      with (Reference.scale * ((m - c) * (m' + c))) by ring.
    replace ((m' - c) * Reference.scale * (m + c))
      with (Reference.scale * ((m' - c) * (m + c))) by ring.
    apply Z.mul_le_mono_nonneg_l; [lia|].
    replace ((m - c) * (m' + c)) with (m * m' - c * c + c * (m - m')) by ring.
    replace ((m' - c) * (m + c)) with (m * m' - c * c + c * (m' - m)) by ring.
    assert (c * (m - m') <= c * (m' - m)) by (apply Z.mul_le_mono_nonneg_l; lia).
    lia.
Qed.

Lemma atanh_arg_third (m : Z) :
  2 ^ 52 <= m < 2 ^ 53 -> atanh_arg m <= Reference.scale / 3.
Proof.
  intros Hm. unfold atanh_arg. pose proof scale_pos as HS.
  change (2 ^ 52) with 4503599627370496 in *. change (2 ^ 53) with 9007199254740992 in *.
  apply div_cross_mono; try lia.
  replace ((m - 4503599627370496) * Reference.scale * 3)
    with (Reference.scale * (3 * (m - 4503599627370496))) by ring.
  apply Z.mul_le_mono_nonneg_l; lia.
Qed.

Lemma ln2_fix_bounds : 0 < Reference.ln2_fix < Reference.scale.
Proof. split; vm_compute; reflexivity. Qed.

Lemma log_fix_mono (b b' : Z) :
  1 <= b -> b <= b' -> b' < 2 ^ 53 -> 0 <= log_fix b <= log_fix b'.
Proof.
  intros Hb Hbb Hb'. unfold log_fix.
  pose proof ln2_fix_bounds as HK.
  pose proof (Z.log2_nonneg b) as Hl.
  pose proof (Z.log2_le_mono b b' Hbb) as Hll.
  pose proof (dyadic_significand b ltac:(lia)) as Hm.
  pose proof (dyadic_significand b' ltac:(lia)) as Hm'.
  set (l := Z.log2 b) in *. set (l' := Z.log2 b') in *.
  set (m := b * 2 ^ (52 - l)) in *. set (m' := b' * 2 ^ (52 - l')) in *.
  pose proof (atanh_arg_mono m m ltac:(lia) ltac:(lia)) as [Hz _].
  pose proof (atanh_arg_mono m' m' ltac:(lia) ltac:(lia)) as [Hz' _].
  pose proof (atanh_fix_mono _ _ (conj Hz (Z.le_refl _))) as [Ha _].
  pose proof (atanh_fix_mono _ _ (conj Hz' (Z.le_refl _))) as [Ha' _].
  set (K := Reference.ln2_fix) in *.
  assert (HlK : 0 <= l * K) by (apply Z.mul_nonneg_nonneg; lia).
  split; [lia|].
  destruct (Z.eq_dec l l') as [E|NE].
  - assert (Hmm : m <= m').
    { unfold m, m'. rewrite <- E. apply Z.mul_le_mono_nonneg_r; [|exact Hbb].
      assert (l < 53) by (apply Z.log2_lt_pow2; lia).
      pose proof (pow2_pos (52 - l) ltac:(lia)). lia. }
    pose proof (atanh_arg_mono m m' ltac:(lia) Hmm) as Hzz.
    pose proof (atanh_fix_mono _ _ Hzz) as [_ Haa].
    rewrite <- E. lia.
  - pose proof (atanh_arg_third m Hm) as H3.
    pose proof (atanh_fix_mono _ _ (conj Hz H3)) as [_ Haa].
    assert (HK2 : K = 2 * Reference.atanh_fix (Reference.scale / 3)) by reflexivity.
    assert ((l + 1) * K <= l' * K) by (apply Z.mul_le_mono_nonneg_r; lia).
    lia.
Qed.

Lemma reference_log_of_Z (b : Z) :
  0 < b < 2 ^ 53 -> Reference.log (of_Z b) = round64 (log_fix b) Reference.scale.
Proof.
  intros Hb. rewrite of_Z_dyadic by exact Hb. unfold dyadic, log_fix, atanh_arg.
  pose proof (dyadic_significand b Hb) as Hm.
  set (m := b * 2 ^ (52 - Z.log2 b)) in *.
  destruct m as [|p|p] eqn:E; [lia| |lia].
  cbn [Reference.log]. f_equal. f_equal. f_equal. lia.
Qed.

(** The logarithm of the reference host does not decrease. *)
Lemma reference_log_monotone : log_monotone Reference.host.
Proof.
  split.
  - assert (E : Math_log Reference.host (of_Z 1) = Fin 0 0) by (vm_compute; reflexivity).
    rewrite E. apply Num_le_same_exponent. lia.
  - intros b b' Hb Hbb Hb'. cbn [Math_log Reference.host].
    assert (H53 : b' < 2 ^ 53).
    { change (1024 ^ 4) with 1099511627776 in Hb'. change (2 ^ 53) with 9007199254740992. lia. }
    rewrite !reference_log_of_Z by lia.
    destruct (log_fix_mono b b' Hb Hbb H53) as [H0 H1].
    pose proof scale_pos as HS. pose proof ln2_fix_bounds as HK.
    apply round64_mono; try assumption.
    + (* the logarithm is below 2^52 *)
      destruct (log_fix_mono b' b' ltac:(lia) ltac:(lia) H53) as [_ _].
      unfold log_fix.
      pose proof (dyadic_significand b' ltac:(lia)) as Hm'.
      pose proof (atanh_arg_mono _ _ (proj1 Hm') (Z.le_refl _)) as [Hz _].
      pose proof (atanh_arg_third _ Hm') as H3.
      pose proof (atanh_fix_mono _ _ (conj Hz H3)) as [_ Haa].
      assert (HK2 : Reference.ln2_fix = 2 * Reference.atanh_fix (Reference.scale / 3))
        by reflexivity.
      assert (Hl : Z.log2 b' < 53) by (apply Z.log2_lt_pow2; lia).
      pose proof (Z.log2_nonneg b').
      set (K := Reference.ln2_fix) in *. set (S := Reference.scale) in *.
      assert (Z.log2 b' * K <= 52 * K) by (apply Z.mul_le_mono_nonneg_r; lia).
      change (2 ^ 52) with 4503599627370496. lia.
    + apply Z.mul_le_mono_nonneg_r; lia.
Qed.

Lemma reference_boundaries : Forall (host_exact Reference.host) unit_boundaries.
Proof.
  unfold unit_boundaries.
  repeat (constructor; [split; vm_compute; reflexivity|]). constructor.
Qed.

(** The reference host selects the unit exactly below 1024^4. *)
Lemma reference_host_exact (b : Z) : 0 < b < 1024 ^ 4 -> host_exact Reference.host b.
Proof. apply host_exact_between; [exact reference_log_monotone|exact reference_boundaries]. Qed.

Lemma digit_value_digit_char (d : Z) : 0 <= d <= 9 -> digit_value (digit_char d) = Some d.
Proof.
  intros Hd.
  assert (H : d = 0 \/ d = 1 \/ d = 2 \/ d = 3 \/ d = 4 \/ d = 5 \/ d = 6 \/ d = 7
              \/ d = 8 \/ d = 9) by lia.
  destruct H as [->|[->|[->|[->|[->|[->|[->|[->|[->| ->]]]]]]]]]; reflexivity.
Qed.

Lemma hundredths_from_digits (s : string) :
  forall (acc v : Z) (t : string),
    decimal_value_from acc s = Some v ->
    hundredths_from acc (s +:+ t) = hundredths_from v t.
Proof.
  induction s as [|c s IH]; intros acc v t H.
  - cbn in H. injection H as <-. rewrite append_nil_l. reflexivity.
  - rewrite append_cons. cbn [decimal_value_from] in H. cbn [hundredths_from].
    destruct (Ascii.eqb_spec c ".") as [->|_]; [discriminate H|].
    destruct (digit_value c) as [d|]; [|discriminate H].
    apply IH. exact H.
Qed.

Lemma decimal_value_from_decimal (ip : Z) :
  0 <= ip <= 1024 ->
  decimal_value_from 0 (decimal ip) = Some ip
  /\ exists c s, decimal ip = String c s /\ c <> "."%char.
Proof.
  intros Hip.
  assert (H : decimal_value (decimal ip) = Some ip).
  { destruct (Z.eq_dec ip 1024) as [->|]; [reflexivity|].
    apply decimal_value_small. lia. }
  unfold decimal_value in H.
  destruct (decimal ip) as [|c s]; [discriminate H|].
  split; [exact H|]. exists c, s. split; [reflexivity|].
  intros ->. discriminate H.
Qed.

(** A count of hundredths is read back from the numeral written for it. *)
Lemma hundredths_value_string (h : Z) :
  0 <= h <= 102400 -> hundredths_value (hundredths_string h) = Some h.
Proof.
  intros Hh. unfold hundredths_string.
  assert (Hip : 0 <= h / 100 <= 1024) by (Z.to_euclidean_division_equations; lia).
  destruct (decimal_value_from_decimal _ Hip) as (Hd & c & s & E & Hc).
  set (rest := if h mod 100 =? 0 then _ else _).
  assert (Hv : hundredths_value (decimal (h / 100) +:+ rest)
               = hundredths_from 0 (decimal (h / 100) +:+ rest)).
  { rewrite E, append_cons. cbn [hundredths_value].
    destruct (Ascii.eqb_spec c "."); [contradiction|reflexivity]. }
  rewrite Hv, (hundredths_from_digits _ 0 (h / 100) rest Hd). unfold rest.
  destruct (Z.eqb_spec (h mod 100) 0) as [E0|E0].
  - cbn [hundredths_from]. f_equal. Z.to_euclidean_division_equations; lia.
  - rewrite append_cons, append_nil_l. cbn [hundredths_from].
    change (Ascii.eqb "." ".") with true. cbv iota.
    assert (D1 : 0 <= h mod 100 / 10 <= 9) by (Z.to_euclidean_division_equations; lia).
    assert (D2 : 0 <= h mod 10 <= 9) by (Z.to_euclidean_division_equations; lia).
    destruct (Z.eqb_spec (h mod 10) 0) as [E1|E1]; cbn [fraction_value].
    + rewrite digit_value_digit_char by exact D1. f_equal.
      Z.to_euclidean_division_equations; lia.
    + rewrite !digit_value_digit_char by assumption. f_equal.
      Z.to_euclidean_division_equations; lia.
Qed.

(** C5.  For every byte count [0 < bytes < 1024^4], on a host whose
    [Math.log] does not decrease over these counts and which is exact at the
    first and the last count of each unit (eight inputs), [formatFileSize]
    takes the unit of index [i] with [1024^i <= bytes < 1024^(i+1)] (that is
    floor (log_1024 bytes)) from the table Bytes, KB, MB, GB, and prints a
    numeral with at most two decimals whose value is the count of
    hundredths nearest to [bytes / 1024^i], a tie going away from zero. *)
Theorem formatFileSize_rounding (h : Host) (bytes : Z) :
  0 < bytes < 1024 ^ 4 ->
  log_monotone h ->
  Forall (host_exact h) unit_boundaries ->
  exists (i hundredths : Z) (numeral unit : string),
    0 <= i < 4
    /\ 1024 ^ i <= bytes < 1024 ^ (i + 1)
    /\ ["Bytes"; "KB"; "MB"; "GB"]%string !! Z.to_nat i = Some unit
    /\ 200 * bytes - 1024 ^ i < 2 * hundredths * 1024 ^ i <= 200 * bytes + 1024 ^ i
    /\ hundredths_value numeral = Some hundredths
    /\ formatFileSize h (of_Z bytes) = numeral +:+ " " +:+ unit.
Proof.
  intros Hb Hmono Hbd.
  pose proof (host_exact_between h Hmono Hbd bytes Hb) as Hh.
  pose proof (ilog1024_small bytes Hb) as Hi.
  destruct (ilog1024_spec bytes ltac:(lia)) as [_ Hr].
  rewrite (formatFileSize_eq h bytes Hb Hh).
  set (i := ilog1024 bytes) in *.
  assert (Hp : 0 < 1024 ^ i) by (apply Z.pow_pos_nonneg; lia).
  assert (Hq : 100 <= (200 * bytes + 1024 ^ i) / (2 * 1024 ^ i) <= 102400).
  { apply scaled_value; [lia|exact Hr|].
    change (1024 ^ 4) with 1099511627776 in Hb. change (2 ^ 53) with 9007199254740992. lia. }
  assert (Hu : exists unit, ["Bytes"; "KB"; "MB"; "GB"]%string !! Z.to_nat i = Some unit
                            /\ string_of_element (sizes !! Z.to_nat i) = unit).
  { assert (Hcases : i = 0 \/ i = 1 \/ i = 2 \/ i = 3) by lia.
    destruct Hcases as [->|[->|[->| ->]]]; eexists; split; reflexivity. }
  destruct Hu as (unit & Hu & Es).
  set (P := 1024 ^ i) in *.
  exists i, ((200 * bytes + P) / (2 * P)), (hundredths_string ((200 * bytes + P) / (2 * P))),
         unit.
  split; [lia|]. split; [exact Hr|]. split; [exact Hu|].
  split; [|split].
  - pose proof (Z.div_mod (200 * bytes + P) (2 * P) ltac:(lia)) as E.
    pose proof (Z.mod_pos_bound (200 * bytes + P) (2 * P) ltac:(lia)) as B.
    set (q := (200 * bytes + P) / (2 * P)) in *. nia.
  - apply hundredths_value_string. lia.
  - rewrite Es. reflexivity.
Qed.

Lemma formatFileSize_rounding_witness :
  exists (i hundredths : Z) (numeral unit : string),
    0 <= i < 4
    /\ 1024 ^ i <= 1234567 < 1024 ^ (i + 1)
    /\ ["Bytes"; "KB"; "MB"; "GB"]%string !! Z.to_nat i = Some unit
    /\ 200 * 1234567 - 1024 ^ i < 2 * hundredths * 1024 ^ i <= 200 * 1234567 + 1024 ^ i
    /\ hundredths_value numeral = Some hundredths
    /\ formatFileSize Reference.host (of_Z 1234567) = numeral +:+ " " +:+ unit.
Proof.
  apply (formatFileSize_rounding Reference.host 1234567).
  - vm_compute. split; reflexivity.
  - exact reference_log_monotone.
  - exact reference_boundaries.
Defined.

(** ** The object store *)

(** The store-level function computes the pure one and allocates its
    result. *)
Lemma store_validateFile_run (σ : gmap Store.loc Store.object) (file : Store.loc) (f : File) :
  σ !! file = Some (Store.OFile f) ->
  Store.validateFile file σ
  = Some (fresh (dom σ), <[fresh (dom σ) := Store.OResult (validateFile f)]> σ).
Proof.
  intros H. unfold Store.validateFile, Store.bind, Store.get_type, Store.get_size, validateFile.
  rewrite H.
  destruct (negb (includes allowedTypes (type f))); [reflexivity|].
  rewrite H. destruct (size f >? maxSize); reflexivity.
Qed.

Lemma store_validateFile_inv (σ σ' : gmap Store.loc Store.object) (file l : Store.loc) :
  Store.validateFile file σ = Some (l, σ') ->
  exists f, σ !! file = Some (Store.OFile f)
            /\ l = fresh (dom σ)
            /\ σ' = <[l := Store.OResult (validateFile f)]> σ.
Proof.
  intros H.
  destruct (σ !! file) as [[f|r]|] eqn:E.
  - rewrite (store_validateFile_run σ file f E) in H. injection H as <- <-.
    exists f. repeat split; reflexivity.
  - unfold Store.validateFile, Store.bind, Store.get_type in H. rewrite E in H. discriminate.
  - unfold Store.validateFile, Store.bind, Store.get_type in H. rewrite E in H. discriminate.
Qed.

Lemma fresh_unused (σ : gmap Store.loc Store.object) : σ !! fresh (dom σ) = None.
Proof. apply not_elem_of_dom. apply is_fresh. Qed.

(** C8.  A call of [validateFile] on a descriptor in the store leaves the
    descriptor as it was, whatever it returns: the store after the call
    differs from the store before it by the returned object only, which is
    at a location that was not in use. *)
Theorem validateFile_frame (σ σ' : gmap Store.loc Store.object) (file l : Store.loc) :
  Store.validateFile file σ = Some (l, σ') ->
  σ' !! file = σ !! file
  /\ σ !! l = None
  /\ forall l' : Store.loc, l' <> l -> σ' !! l' = σ !! l'.
Proof.
  intros H. destruct (store_validateFile_inv _ _ _ _ H) as (f & Hf & -> & ->).
  pose proof (fresh_unused σ) as Hfresh.
  split; [|split].
  - apply lookup_insert_ne. intros E. rewrite E in Hfresh. congruence.
  - exact Hfresh.
  - intros l' Hne. apply lookup_insert_ne. congruence.
Qed.

Lemma validateFile_frame_witness :
  Store.validateFile 1%positive png_store
  = Some (fresh (dom png_store),
          <[fresh (dom png_store) := Store.OResult Valid]> png_store)
  /\ <[fresh (dom png_store) := Store.OResult Valid]> png_store !! 1%positive
     = png_store !! 1%positive.
Proof.
  assert (E : Store.validateFile 1%positive png_store
              = Some (fresh (dom png_store),
                      <[fresh (dom png_store) := Store.OResult Valid]> png_store)).
  { apply (store_validateFile_run png_store 1%positive {| type := "image/png"; size := 1000 |}).
    reflexivity. }
  split; [exact E|].
  exact (proj1 (validateFile_frame _ _ _ _ E)).
Defined.

(** X12.  Two calls of [validateFile] on the same descriptor, one after the
    other, return two different objects of equal content, and the second
    call leaves the object the first one returned as it was. *)
Theorem validateFile_called_twice
  (σ σ1 σ2 : gmap Store.loc Store.object) (file l1 l2 : Store.loc) :
  Store.validateFile file σ = Some (l1, σ1) ->
  Store.validateFile file σ1 = Some (l2, σ2) ->
  l1 <> l2 /\ σ2 !! l2 = σ1 !! l1 /\ σ2 !! l1 = σ1 !! l1.
Proof.
  intros H1 H2.
  destruct (store_validateFile_inv _ _ _ _ H1) as (f & Hf & E1 & ->).
  assert (Hfile : <[l1 := Store.OResult (validateFile f)]> σ !! file = Some (Store.OFile f)).
  { rewrite lookup_insert_ne; [exact Hf|].
    intros E. rewrite E1 in E. pose proof (fresh_unused σ) as Hfr. rewrite E in Hfr. congruence. }
  destruct (store_validateFile_inv _ _ _ _ H2) as (f' & Hf' & E2 & ->).
  rewrite Hfile in Hf'. injection Hf' as <-.
  assert (Hne : l1 <> l2).
  { intros E. rewrite E2 in E.
    pose proof (fresh_unused (<[l1 := Store.OResult (validateFile f)]> σ)) as Hfr.
    rewrite <- E, lookup_insert_eq in Hfr. discriminate. }
  split; [exact Hne|].
  rewrite !lookup_insert_eq.
  split; [reflexivity|].
  rewrite lookup_insert_ne; [apply lookup_insert_eq|]. congruence.
Qed.

Lemma validateFile_called_twice_witness :
  fresh (dom png_store)
  <> fresh (dom (<[fresh (dom png_store) := Store.OResult Valid]> png_store)).
Proof.
  pose (σ1 := <[fresh (dom png_store) := Store.OResult Valid]> png_store).
  assert (E1 : Store.validateFile 1%positive png_store = Some (fresh (dom png_store), σ1)).
  { apply (store_validateFile_run png_store 1%positive {| type := "image/png"; size := 1000 |}).
    reflexivity. }
  assert (E2 : Store.validateFile 1%positive σ1
               = Some (fresh (dom σ1), <[fresh (dom σ1) := Store.OResult Valid]> σ1)).
  { apply (store_validateFile_run σ1 1%positive {| type := "image/png"; size := 1000 |}).
    reflexivity. }
  exact (proj1 (validateFile_called_twice _ _ _ 1%positive _ _ E1 E2)).
Defined.



(** ** formatDate *)

(** C9.  [formatDate] of a string always completes normally, with the host's
    rendering of the time value the string parses to; for a string the host
    cannot parse, that is the host's rendering of the invalid date. *)
Theorem formatDate_never_throws (h : Host) (dateString : string) :
  formatDate h (VString dateString) = Normal (Date_toLocaleString h (Date_parse h dateString))
  /\ (exists out : string, formatDate h (VString dateString) = Normal out)
  /\ (Date_parse h dateString = None ->
      formatDate h (VString dateString) = Normal (Date_toLocaleString h None)).
Proof.
  unfold formatDate. cbn [Date_new]. split; [reflexivity|]. split.
  - eexists. reflexivity.
  - intros ->. reflexivity.
Qed.

Lemma formatDate_never_throws_witness :
  formatDate Reference.host (VString "next tuesday") = Normal "Invalid Date"%string.
Proof.
  apply (proj2 (proj2 (formatDate_never_throws Reference.host "next tuesday"))).
  reflexivity.
Defined.


(** ** showNotification *)

Import Page.

(** C6.  On a page with one empty [main .container], [showNotification("x")]
    inserts one banner, as the first element of the container, and schedules
    one timer at 5000 ms.  Once all timers have run the banner is hidden but
    it is still in the document and still matches [.alert]: the callback
    removes [$(this)], and [this] of an arrow function is the one of the call
    of [showNotification], which is no element. *)
Theorem showNotification_banner_not_removed :
  let p1 := showNotification ThisWindow "x" None one_container in
  let p2 := run_until 10 10000 p1 in
  select_class "alert" (document one_container) = []
  /\ select_class "alert" (document p1) = [4%nat]
  /\ element_children 3 (document p1) = [4%nat]
  /\ timers p1 = [(5000, fadeOut_alerts ThisWindow)]
  /\ timers p2 = []
  /\ clock p2 = 10000
  /\ displayed_at 4 (document p2) = [false]
  /\ select_class "alert" (document p2) = [4%nat].
Proof. vm_compute. repeat split; reflexivity. Qed.

(** ** More on validateFile and formatFileSize *)

(** X1.  [validateFile] accepts a file exactly when its type is in the
    allow-list and its size is at most 500 * 1024 * 1024; in particular there
    is no lower bound on the size. *)
Theorem validateFile_accepts_iff (file : File) :
  valid (validateFile file) = true
  <-> In (type file) allowedTypes /\ size file <= 500 * 1024 * 1024.
Proof.
  unfold validateFile, maxSize.
  destruct (includes allowedTypes (type file)) eqn:E; cbn [negb].
  - apply includes_In in E.
    destruct (Z.gtb_spec (size file) (500 * 1024 * 1024)); cbn [valid].
    + split; [discriminate|lia].
    + split; [intros _; split; [exact E|lia]|reflexivity].
  - cbn [valid]. split; [discriminate|].
    intros [H _]. apply includes_In in H. congruence.
Qed.

(** X2.  The object [validateFile] returns has a [message] exactly when it is
    not [valid]. *)
Theorem validateFile_message_iff (file : File) :
  message (validateFile file) = None <-> valid (validateFile file) = true.
Proof.
  unfold validateFile.
  destruct (negb (includes allowedTypes (type file))); cbn; [split; discriminate|].
  destruct (size file >? maxSize); cbn; split; try discriminate; reflexivity.
Qed.

Lemma ilog1024_unique (b i : Z) :
  0 <= i -> 1024 ^ i <= b < 1024 ^ (i + 1) -> ilog1024 b = i.
Proof.
  intros Hi [L U]. unfold ilog1024.
  assert (Hp : 0 < 1024 ^ i) by (apply Z.pow_pos_nonneg; lia).
  change 1024 with (2 ^ 10) in L, U. rewrite <- Z.pow_mul_r in L, U by lia.
  assert (10 * i <= Z.log2 b).
  { rewrite <- (Z.log2_pow2 (10 * i)) by lia. apply Z.log2_le_mono. exact L. }
  assert (Z.log2 b < 10 * (i + 1)) by (apply Z.log2_lt_pow2; lia).
  Z.to_euclidean_division_equations; lia.
Qed.

(** X3.  From 1024^4 bytes on (as long as a hundred times the count is below
    2^53) the unit index is 4, past the end of the table: the number printed
    is still the count of 1024^4-byte units rounded to hundredths, and the
    unit printed is "undefined". *)
Theorem formatFileSize_beyond_table (h : Host) (bytes : Z) :
  1024 ^ 4 <= bytes -> 100 * bytes < 2 ^ 53 -> host_exact h bytes ->
  exists hundredths : Z,
    200 * bytes - 1024 ^ 4 < 2 * hundredths * 1024 ^ 4 <= 200 * bytes + 1024 ^ 4
    /\ formatFileSize h (of_Z bytes) = hundredths_string hundredths +:+ " undefined".
Proof.
  intros Hb H100 Hh.
  assert (Hi : ilog1024 bytes = 4).
  { apply ilog1024_unique; [lia|]. split; [exact Hb|].
    change (2 ^ 53) with 9007199254740992 in H100.
    change (1024 ^ (4 + 1)) with 1125899906842624. lia. }
  change (1024 ^ 4) with 1099511627776 in *.
  rewrite (formatFileSize_exact h bytes) by (assumption || lia).
  rewrite Hi. change (1024 ^ 4) with 1099511627776.
  exists ((200 * bytes + 1099511627776) / (2 * 1099511627776)).
  split; [Z.to_euclidean_division_equations; lia|reflexivity].
Qed.

Lemma formatFileSize_beyond_table_witness :
  exists hundredths : Z,
    200 * 3298534883328 - 1024 ^ 4 < 2 * hundredths * 1024 ^ 4
      <= 200 * 3298534883328 + 1024 ^ 4
    /\ formatFileSize Reference.host (of_Z 3298534883328)
       = hundredths_string hundredths +:+ " undefined".
Proof.
  apply formatFileSize_beyond_table.
  - vm_compute. discriminate.
  - vm_compute. reflexivity.
  - split; vm_compute; reflexivity.
Defined.

(** X4.  A byte count within half a hundredth of the next unit is printed as
    1024 of the smaller unit, not as 1 of the larger one. *)
Theorem formatFileSize_shows_1024 (h : Host) (bytes : Z) :
  0 < bytes < 1024 ^ 4 -> host_exact h bytes ->
  204799 * 1024 ^ ilog1024 bytes <= 200 * bytes ->
  formatFileSize h (of_Z bytes)
  = "1024 " +:+ string_of_element (sizes !! Z.to_nat (ilog1024 bytes)).
Proof.
  intros Hb Hh Hnear.
  rewrite (formatFileSize_eq h bytes Hb Hh).
  pose proof (ilog1024_small bytes Hb) as Hi.
  destruct (ilog1024_spec bytes ltac:(lia)) as [_ Hr].
  set (i := ilog1024 bytes) in *.
  assert (Hp : 0 < 1024 ^ i) by (apply Z.pow_pos_nonneg; lia).
  assert (H100 : 100 * bytes < 2 ^ 53).
  { change (1024 ^ 4) with 1099511627776 in Hb. change (2 ^ 53) with 9007199254740992. lia. }
  destruct (scaled_value bytes i ltac:(lia) Hr H100) as [_ Hrange].
  set (P := 1024 ^ i) in *.
  assert (E : (200 * bytes + P) / (2 * P) = 102400).
  { apply Z.le_antisymm; [lia|]. apply Z.div_le_lower_bound; lia. }
  rewrite E. reflexivity.
Qed.

Lemma formatFileSize_shows_1024_witness :
  formatFileSize Reference.host (of_Z 1048575) = "1024 KB"%string.
Proof.
  apply (formatFileSize_shows_1024 Reference.host 1048575).
  - vm_compute. split; reflexivity.
  - split; vm_compute; reflexivity.
  - vm_compute. discriminate.
Defined.

(** X5.  A whole number [n < 1024] of units 1024^i, [i <= 3], is printed as
    the decimal numeral of [n] without a decimal point, followed by the
    unit. *)
Theorem formatFileSize_whole_units (h : Host) (n i : Z) :
  1 <= n < 1024 -> 0 <= i <= 3 -> host_exact h (n * 1024 ^ i) ->
  formatFileSize h (of_Z (n * 1024 ^ i))
  = decimal n +:+ " " +:+ string_of_element (sizes !! Z.to_nat i).
Proof.
  intros Hn Hi Hh.
  assert (Hp : 0 < 1024 ^ i) by (apply Z.pow_pos_nonneg; lia).
  assert (Hu : ilog1024 (n * 1024 ^ i) = i).
  { apply ilog1024_unique; [lia|]. rewrite Z.pow_add_r by lia. change (1024 ^ 1) with 1024.
    set (P := 1024 ^ i) in *. nia. }
  assert (Hb : 0 < n * 1024 ^ i < 1024 ^ 4).
  { split; [nia|].
    apply Z.lt_le_trans with (1024 ^ (i + 1)).
    - rewrite Z.pow_add_r by lia. change (1024 ^ 1) with 1024. set (P := 1024 ^ i) in *. nia.
    - apply Z.pow_le_mono_r; lia. }
  rewrite (formatFileSize_eq h _ Hb Hh), Hu.
  set (P := 1024 ^ i) in *.
  replace (200 * (n * P) + P) with ((200 * n + 1) * P) by ring.
  rewrite Z.div_mul_cancel_r by lia.
  replace ((200 * n + 1) / 2) with (100 * n) by (Z.to_euclidean_division_equations; lia).
  unfold hundredths_string.
  replace (100 * n / 100) with n by (Z.to_euclidean_division_equations; lia).
  replace ((100 * n) mod 100) with 0 by (Z.to_euclidean_division_equations; lia).
  change (0 =? 0) with true. cbv iota. rewrite append_nil_r. reflexivity.
Qed.

Lemma formatFileSize_whole_units_witness :
  formatFileSize Reference.host (of_Z (500 * 1024 ^ 2)) = "500 MB"%string.
Proof.
  apply (formatFileSize_whole_units Reference.host 500 2); [lia|lia|].
  split; vm_compute; reflexivity.
Defined.

(** X6.  When the logarithm of the argument is NaN (a negative count, or NaN
    itself) and the host's power of a NaN exponent is NaN, [formatFileSize]
    returns "NaN undefined". *)
Theorem formatFileSize_not_a_number (h : Host) (bytes : Number) :
  Number_eqb bytes (of_Z 0) = false ->
  Math_log h bytes = NaN -> Math_pow h (of_Z 1024) NaN = NaN ->
  formatFileSize h bytes = "NaN undefined"%string.
Proof.
  intros Hz Hlog Hpow. unfold formatFileSize. rewrite Hz. cbv zeta.
  rewrite Hlog. cbn [Num_div Math_floor]. rewrite Hpow.
  destruct bytes; reflexivity.
Qed.

Lemma formatFileSize_not_a_number_witness :
  formatFileSize Reference.host (of_Z (-5)) = "NaN undefined"%string.
Proof.
  apply formatFileSize_not_a_number; vm_compute; reflexivity.
Defined.

(** ** More on showNotification *)

Lemma flat_map_map {A B C : Type} (f : B -> list C) (g : A -> B) (l : list A) :
  flat_map f (map g l) = flat_map (fun x => f (g x)) l.
Proof. induction l as [|x l IH]; cbn; [reflexivity|]. rewrite IH. reflexivity. Qed.

Lemma flat_map_ext_in {A B : Type} (f g : A -> list B) (l : list A) :
  Forall (fun x => f x = g x) l -> flat_map f l = flat_map g l.
Proof. induction 1 as [|x l E _ IH]; cbn; [reflexivity|]. rewrite E, IH. reflexivity. Qed.

(** Induction on a tree of nodes. *)
Lemma node_induction (P : node -> Prop) :
  (forall s, P (Text s)) ->
  (forall id tag cs d ch, Forall P ch -> P (Elem id tag cs d ch)) ->
  forall n, P n.
Proof.
  intros HT HE. fix IH 1. intros [s|id tag cs d ch]; [apply HT|].
  apply HE. induction ch as [|c ch IHch]; constructor; [apply IH|exact IHch].
Qed.

Lemma select_class_hide (c : string) (t : nat) (n : node) :
  select_class c (hide t n) = select_class c n.
Proof.
  induction n as [s|id tag cs d ch IH] using node_induction; [reflexivity|].
  cbn [hide select_class]. f_equal. rewrite flat_map_map.
  apply flat_map_ext_in. exact IH.
Qed.

(** X7.  On a page without any [main .container] the notification is dropped
    silently: the document is unchanged, and the timer is scheduled all the
    same. *)
Theorem showNotification_without_container
  (this : this_value) (message : string) (type : option string) (p : page) :
  select_main_container false (document p) = [] ->
  document (showNotification this message type p) = document p
  /\ timers (showNotification this message type p)
     = timers p ++ [(clock p + 5000, fadeOut_alerts this)].
Proof.
  intros H. unfold showNotification. rewrite H. cbn. split; reflexivity.
Qed.

Lemma showNotification_without_container_witness :
  document (showNotification ThisWindow "saved" None no_main) = document no_main
  /\ timers (showNotification ThisWindow "saved" None no_main)
     = timers no_main ++ [(clock no_main + 5000, fadeOut_alerts ThisWindow)].
Proof. apply showNotification_without_container. reflexivity. Defined.

Lemma take_earliest_Forall (P : Z * task -> Prop) (when : Z -> Z) (ts : list (Z * task)) :
  forall d t rest,
    take_earliest when ts = Some (d, t, rest) -> Forall P ts -> P (d, t) /\ Forall P rest.
Proof.
  induction ts as [|[d0 t0] ts IH]; intros d t rest E HF; [discriminate|].
  cbn [take_earliest] in E. inversion HF as [|? ? H0 Hts]; subst.
  destruct (take_earliest when ts) as [[[d' t'] rest']|].
  - destruct (IH d' t' rest' eq_refl Hts) as [H1 H2].
    destruct (when d' <? when d0); injection E as <- <- <-.
    + split; [exact H1|constructor; assumption].
    + split; assumption.
  - injection E as <- <- <-. split; [exact H0|constructor].
Qed.

Lemma remove_this_harmless (this : this_value) (doc : node) :
  not_a_node this -> remove_this this doc = doc.
Proof. destruct this; cbn; [reflexivity|reflexivity|contradiction]. Qed.

Lemma run_task_harmless (c : string) (now : Z) (t : task) (p : page) :
  not_a_node (task_this t) -> Forall harmless (timers p) ->
  Forall harmless (timers (run_task now t p))
  /\ select_class c (document (run_task now t p)) = select_class c (document p).
Proof.
  intros Ht HF. destruct t as [this|el this]; cbn [run_task document timers task_this] in *.
  - split; [|reflexivity].
    apply Forall_app. split; [exact HF|].
    induction (select_class "alert" (document p)) as [|el els IH];
      cbn [map]; constructor; [exact Ht|exact IH].
  - split; [exact HF|].
    rewrite remove_this_harmless by exact Ht. apply select_class_hide.
Qed.

Lemma run_until_harmless (c : string) (until : Z) (fuel : nat) :
  forall p : page,
    Forall harmless (timers p) ->
    select_class c (document (run_until fuel until p)) = select_class c (document p).
Proof.
  induction fuel as [|fuel IH]; intros p HF; [reflexivity|].
  cbn [run_until].
  destruct (take_earliest (runs_at (browser p)) (timers p)) as [[[d t] rest]|] eqn:E;
    [|reflexivity].
  destruct (runs_at (browser p) d <=? until); [|reflexivity].
  destruct (take_earliest_Forall harmless _ _ _ _ _ E HF) as [Ht Hrest].
  set (p' := {| document := document p; next_id := next_id p; clock := clock p;
                timers := rest; browser := browser p |}).
  destruct (run_task_harmless c (runs_at (browser p) d) t p' Ht Hrest) as [HF' Hsel].
  rewrite (IH _ HF'). exact Hsel.
Qed.

(** X8.  Whatever the page, the message and the time that passes, when [this]
    is no element the elements of any class after a call of
    [showNotification] are still there once timers have run: the automatic
    dismissal never removes anything. *)
Theorem notification_never_removed
  (c : string) (this : this_value) (message : string) (type : option string)
  (p : page) (fuel : nat) (until : Z) :
  not_a_node this -> Forall harmless (timers p) ->
  select_class c (document (run_until fuel until (showNotification this message type p)))
  = select_class c (document (showNotification this message type p)).
Proof.
  intros Hthis HF. apply run_until_harmless.
  unfold showNotification.
  destruct (prepend_all _ _ _ _) as [doc next]. cbn [setTimeout timers clock].
  apply Forall_app. split; [exact HF|]. constructor; [exact Hthis|constructor].
Qed.

Lemma notification_never_removed_witness :
  select_class "alert"
    (document (run_until 10 60000 (showNotification ThisWindow "x" None one_container)))
  = select_class "alert" (document (showNotification ThisWindow "x" None one_container)).
Proof.
  apply notification_never_removed.
  - exact I.
  - constructor.
Defined.

Lemma all_hidden_app (a b : list bool) : all_hidden (a ++ b) = all_hidden a ++ all_hidden b.
Proof. apply map_app. Qed.

Lemma all_hidden_idem (l : list bool) : all_hidden (all_hidden l) = all_hidden l.
Proof. induction l as [|x l IH]; cbn; [reflexivity|]. f_equal. exact IH. Qed.

Lemma all_hidden_flat_map {A : Type} (g : A -> list bool) (l : list A) :
  all_hidden (flat_map g l) = flat_map (fun x => all_hidden (g x)) l.
Proof.
  induction l as [|x l IH]; cbn; [reflexivity|]. rewrite all_hidden_app, IH. reflexivity.
Qed.

Lemma displayed_at_hide_same (t : nat) (n : node) :
  displayed_at t (hide t n) = all_hidden (displayed_at t n).
Proof.
  induction n as [s|id tag cs d ch IH] using node_induction; [reflexivity|].
  cbn [hide displayed_at]. rewrite flat_map_map, all_hidden_app, all_hidden_flat_map.
  f_equal.
  - destruct (Nat.eqb id t); reflexivity.
  - apply flat_map_ext_in. exact IH.
Qed.

Lemma displayed_at_hide_other (t t' : nat) (n : node) :
  t <> t' -> displayed_at t (hide t' n) = displayed_at t n.
Proof.
  intros Hne.
  induction n as [s|id tag cs d ch IH] using node_induction; [reflexivity|].
  cbn [hide displayed_at]. rewrite flat_map_map. f_equal.
  - destruct (Nat.eqb_spec id t); [|reflexivity].
    destruct (Nat.eqb_spec id t'); [congruence|reflexivity].
  - apply flat_map_ext_in. exact IH.
Qed.

Lemma displayed_at_hide (t t' : nat) (n : node) :
  displayed_at t (hide t' n)
  = if Nat.eqb t t' then all_hidden (displayed_at t n) else displayed_at t n.
Proof.
  destruct (Nat.eqb_spec t t') as [->|Hne].
  - apply displayed_at_hide_same.
  - apply displayed_at_hide_other. exact Hne.
Qed.

Lemma displayed_at_hide_all (t : nat) (els : list nat) :
  forall doc : node,
    In t els -> displayed_at t (hide_all els doc) = all_hidden (displayed_at t doc).
Proof.
  assert (Hkeep : forall els doc,
            displayed_at t doc = all_hidden (displayed_at t doc) ->
            displayed_at t (hide_all els doc) = all_hidden (displayed_at t doc)).
  { clear els. induction els as [|e els IH]; intros doc H; cbn; [exact H|].
    unfold hide_all in IH. rewrite IH.
    - rewrite displayed_at_hide. destruct (Nat.eqb t e); [apply all_hidden_idem|reflexivity].
    - rewrite displayed_at_hide. destruct (Nat.eqb t e).
      + symmetry. apply all_hidden_idem.
      + exact H. }
  induction els as [|e els IH]; intros doc Hin; [destruct Hin|].
  cbn. destruct (Nat.eq_dec e t) as [->|Hne].
  - fold (hide_all els (hide t doc)). rewrite Hkeep.
    + rewrite displayed_at_hide, Nat.eqb_refl. apply all_hidden_idem.
    + rewrite displayed_at_hide, Nat.eqb_refl. symmetry. apply all_hidden_idem.
  - destruct Hin as [E|Hin]; [congruence|].
    fold (hide_all els (hide e doc)). rewrite (IH _ Hin).
    rewrite displayed_at_hide. destruct (Nat.eqb_spec t e); [congruence|reflexivity].
Qed.

Lemma take_earliest_none (when : Z -> Z) (ts : list (Z * task)) :
  take_earliest when ts = None -> ts = [].
Proof.
  destruct ts as [|[d t] ts]; [reflexivity|]. cbn.
  destruct (take_earliest when ts) as [[[d' t'] rest']|]; [destruct (when d' <? when d)|];
    discriminate.
Qed.

Section Completions.

Variables (this : this_value) (due until : Z) (b : Browser).
Hypothesis Hthis : not_a_node this.
Hypothesis Hdue : runs_at b due <= until.

Local Abbreviation pending := (pending_fades this due).

Lemma take_earliest_due (els : list nat) :
  match take_earliest (runs_at b) (pending els) with
  | Some (d, _, _) => d = due
  | None => True
  end.
Proof.
  induction els as [|el els IH]; [exact I|].
  unfold pending_fades. cbn [map take_earliest]. fold (pending_fades this due els).
  destruct (take_earliest (runs_at b) (pending els)) as [[[d' t'] rest']|]; [|reflexivity].
  destruct (runs_at b d' <? runs_at b due); [exact IH|reflexivity].
Qed.

Lemma take_earliest_pending (el : nat) (els : list nat) :
  take_earliest (runs_at b) (pending (el :: els))
  = Some (due, fade_complete el this, pending els).
Proof.
  unfold pending_fades. cbn [map take_earliest]. fold (pending_fades this due els).
  pose proof (take_earliest_due els) as H.
  destruct (take_earliest (runs_at b) (pending els)) as [[[d' t'] rest']|] eqn:E.
  - subst d'. rewrite Z.ltb_irrefl. reflexivity.
  - apply take_earliest_none in E. rewrite E. reflexivity.
Qed.

Lemma run_completions (els : list nat) :
  forall (fuel : nat) (doc : node) (nid : nat) (clk : Z),
    (length els <= fuel)%nat ->
    document (run_until fuel until
                {| document := doc; next_id := nid; clock := clk; timers := pending els;
                   browser := b |})
    = hide_all els doc.
Proof.
  induction els as [|el els IH]; intros fuel doc nid clk Hf.
  - destruct fuel; reflexivity.
  - destruct fuel as [|fuel]; [cbn in Hf; lia|].
    cbn [run_until timers browser]. rewrite take_earliest_pending.
    destruct (Z.leb_spec (runs_at b due) until); [|lia].
    cbn [run_task document next_id clock timers browser].
    rewrite remove_this_harmless by exact Hthis.
    rewrite IH by (cbn in Hf; lia). reflexivity.
Qed.

End Completions.

Lemma showNotification_shape
  (this : this_value) (message : string) (type : option string) (p : page) :
  exists doc next,
    showNotification this message type p
    = {| document := doc; next_id := next; clock := clock p;
         timers := timers p ++ [(clock p + 5000, fadeOut_alerts this)];
         browser := browser p |}.
Proof.
  unfold showNotification. destruct (prepend_all _ _ _ _) as [doc next].
  exists doc, next. reflexivity.
Qed.

(** X9.  Once the timer of a notification has run and the fade it starts has
    completed (whenever the browser runs the two), every element of class
    [alert] that was in the document when the notification was shown is
    hidden, the ones the page had before included, not only the banner the
    call created. *)
Theorem auto_dismiss_hides_every_alert
  (this : this_value) (message : string) (type : option string) (p : page)
  (fuel : nat) (until : Z) (el : nat) :
  not_a_node this -> timers p = [] ->
  never_early (browser p) ->
  fade_done (browser p) (clock p) <= until ->
  (length (select_class "alert" (document (showNotification this message type p))) < fuel)%nat ->
  In el (select_class "alert" (document (showNotification this message type p))) ->
  displayed_at el (document (run_until fuel until (showNotification this message type p)))
  = map (fun _ => false)
        (displayed_at el (document (showNotification this message type p))).
Proof.
  intros Hthis Ht Hlate Hu Hf Hin.
  destruct (showNotification_shape this message type p) as (doc & next & E).
  rewrite E in *. clear E. rewrite Ht in *.
  cbn [document app] in Hf, Hin |- *.
  destruct fuel as [|fuel]; [lia|].
  cbn [run_until timers take_earliest browser].
  unfold fade_done in Hu.
  set (b := browser p) in *. set (T := runs_at b (clock p + 5000)) in *.
  pose proof (Hlate (T + fade_duration)) as H1. fold b in H1.
  unfold fade_duration in H1, Hu.
  destruct (Z.leb_spec T until); [|lia].
  cbn [run_task document next_id clock timers app browser].
  pose proof (run_completions this (T + fade_duration) until b Hthis
                ltac:(unfold fade_duration; lia) (select_class "alert" doc)
                fuel doc next T ltac:(lia)) as R.
  unfold pending_fades in R. rewrite R.
  apply displayed_at_hide_all. exact Hin.
Qed.

Lemma auto_dismiss_hides_every_alert_witness :
  displayed_at 2
    (document (run_until 10 6000 (showNotification ThisWindow "x" None with_flash)))
  = map (fun _ => false)
        (displayed_at 2 (document (showNotification ThisWindow "x" None with_flash))).
Proof.
  apply auto_dismiss_hides_every_alert.
  - exact I.
  - reflexivity.
  - intros d. cbn. lia.
  - vm_compute. discriminate.
  - vm_compute. lia.
  - vm_compute. left. reflexivity.
Defined.

Lemma length_flat_map_ext {A B C : Type} (f : A -> list B) (g : A -> list C) (l : list A) :
  Forall (fun x => length (f x) = length (g x)) l ->
  length (flat_map f l) = length (flat_map g l).
Proof.
  induction 1 as [|x l E _ IH]; cbn; [reflexivity|].
  rewrite !length_app, E, IH. reflexivity.
Qed.

Section Prepend.

Variables (t : nat) (frag : list node).

Lemma length_select_prepend (c : string) (n : node) :
  length (select_class c (prepend t frag n))
  = (length (select_class c n)
     + occurrences t n * length (flat_map (select_class c) frag))%nat.
Proof.
  unfold occurrences.
  induction n as [s|id tag cs d ch IH] using node_induction; [reflexivity|].
  cbn [prepend select_class displayed_at]. rewrite !length_app.
  assert (Hch : length (flat_map (select_class c) (map (prepend t frag) ch))
                = (length (flat_map (select_class c) ch)
                   + length (flat_map (displayed_at t) ch)
                     * length (flat_map (select_class c) frag))%nat).
  { clear id tag cs d. induction IH as [|x l E _ IHl]; cbn [map flat_map]; [reflexivity|].
    rewrite !length_app, E, IHl. lia. }
  destruct (Nat.eqb id t).
  - rewrite flat_map_app, length_app, Hch. cbn [length]. lia.
  - rewrite Hch. cbn [length]. lia.
Qed.

Lemma occurrences_prepend (x : nat) (n : node) :
  occurrences x (prepend t frag n)
  = (occurrences x n + occurrences t n * length (flat_map (displayed_at x) frag))%nat.
Proof.
  unfold occurrences.
  induction n as [s|id tag cs d ch IH] using node_induction; [reflexivity|].
  cbn [prepend displayed_at]. rewrite !length_app.
  assert (Hch : length (flat_map (displayed_at x) (map (prepend t frag) ch))
                = (length (flat_map (displayed_at x) ch)
                   + length (flat_map (displayed_at t) ch)
                     * length (flat_map (displayed_at x) frag))%nat).
  { clear id tag cs d. induction IH as [|y l E _ IHl]; cbn [map flat_map]; [reflexivity|].
    rewrite !length_app, E, IHl. lia. }
  destruct (Nat.eqb id t).
  - rewrite flat_map_app, length_app, Hch. cbn [length]. lia.
  - rewrite Hch. cbn [length]. lia.
Qed.

End Prepend.

Lemma select_main_container_occurs (t : nat) (n : node) :
  forall in_main : bool,
    In t (select_main_container in_main n) -> (1 <= occurrences t n)%nat.
Proof.
  unfold occurrences.
  induction n as [s|id tag cs d ch IH] using node_induction; intros in_main H; [destruct H|].
  cbn [select_main_container displayed_at] in *. rewrite length_app.
  apply in_app_or in H as [H|H].
  - destruct (in_main && has_class "container" cs); [|destruct H].
    destruct H as [->|[]]. rewrite Nat.eqb_refl. cbn. lia.
  - apply in_flat_map in H as (c & Hc & Ht).
    assert (1 <= length (flat_map (displayed_at t) ch))%nat; [|lia].
    revert c Hc Ht. induction IH as [|y l E _ IHl]; intros c Hc Ht; [destruct Hc|].
    cbn [flat_map]. rewrite length_app. destruct Hc as [->|Hc].
    + specialize (E _ Ht). lia.
    + specialize (IHl c Hc Ht). lia.
Qed.

(** Induction on parsed markup. *)
Lemma html_induction (P : html -> Prop) :
  (forall s, P (HText s)) ->
  (forall tag cs ch, Forall P ch -> P (HElem tag cs ch)) ->
  forall h, P h.
Proof.
  intros HT HE. fix IH 1. intros [s|tag cs ch]; [apply HT|].
  apply HE. induction ch as [|c ch IHch]; constructor; [apply IH|exact IHch].
Qed.

Lemma instantiate_element (next : nat) (tag : string) (cs : list string) (ch : list html) :
  instantiate next (HElem tag cs ch)
  = (Elem next tag cs true (fst (instantiate_all (S next) ch)),
     snd (instantiate_all (S next) ch)).
Proof.
  cbn [instantiate].
  match goal with
  | |- (let '(_, _) := ?F (S next) ch in _) = _ => set (children := F)
  end.
  assert (E : forall l n, children n l = instantiate_all n l).
  { induction l as [|c l IHl]; intros n; [reflexivity|].
    cbn [instantiate_all]. unfold children at 1. fold children. cbv beta iota.
    destruct (instantiate n c) as [c' n1]. rewrite IHl. reflexivity. }
  rewrite E. destruct (instantiate_all (S next) ch). reflexivity.
Qed.

(** The nodes made for markup have as many elements of a class as the
    markup. *)
Lemma select_class_instantiate (c : string) (h : html) :
  forall next : nat,
    length (select_class c (fst (instantiate next h))) = count_class c h.
Proof.
  induction h as [s|tag cs ch IH] using html_induction; intros next; [reflexivity|].
  rewrite instantiate_element. cbn [fst select_class count_class]. rewrite length_app.
  f_equal; [destruct (has_class c cs); reflexivity|].
  generalize (S next). clear next.
  induction IH as [|x l E _ IHl]; intros n; [reflexivity|].
  cbn [instantiate_all map list_sum]. specialize (E n).
  destruct (instantiate n x) as [x' n1]. specialize (IHl n1).
  destruct (instantiate_all n1 l) as [l' n2].
  cbn [fst flat_map] in *. rewrite length_app, E, IHl. reflexivity.
Qed.

Lemma select_class_instantiate_all (c : string) (l : list html) :
  forall next : nat,
    length (flat_map (select_class c) (fst (instantiate_all next l)))
    = list_sum (map (count_class c) l).
Proof.
  induction l as [|x l IHl]; intros n; [reflexivity|].
  cbn [instantiate_all map list_sum].
  pose proof (select_class_instantiate c x n) as E.
  destruct (instantiate n x) as [x' n1]. specialize (IHl n1).
  destruct (instantiate_all n1 l) as [l' n2].
  cbn [fst flat_map] in *. rewrite length_app, E, IHl. reflexivity.
Qed.

Lemma fresh_range_join (x lo mid hi c1 c2 : nat) :
  fresh_range x lo mid c1 -> fresh_range x mid hi c2 -> fresh_range x lo hi (c1 + c2).
Proof.
  intros (L1 & A1 & B1) (L2 & A2 & B2). unfold fresh_range.
  split; [lia|]. split; intros H.
  - destruct (Nat.lt_ge_cases x mid).
    + rewrite A1, B2 by lia. reflexivity.
    + rewrite B1, A2 by lia. reflexivity.
  - rewrite B1, B2 by lia. reflexivity.
Qed.

Lemma occurrences_instantiate (x : nat) (h : html) :
  forall next : nat,
    fresh_range x next (snd (instantiate next h))
                (occurrences x (fst (instantiate next h))).
Proof.
  unfold occurrences.
  induction h as [s|tag cs ch IH] using html_induction; intros next.
  - cbn. unfold fresh_range. repeat split; lia.
  - rewrite instantiate_element. cbn [fst snd displayed_at]. rewrite length_app.
    apply (fresh_range_join x next (S next)).
    + unfold fresh_range. split; [lia|].
      destruct (Nat.eqb_spec next x); cbn [length]; split; intros; lia.
    + generalize (S next). clear next.
      induction IH as [|y l E _ IHl]; intros n.
      * cbn. unfold fresh_range. repeat split; lia.
      * cbn [instantiate_all]. specialize (E n).
        destruct (instantiate n y) as [y' n1]. specialize (IHl n1).
        destruct (instantiate_all n1 l) as [l' n2].
        cbn [fst snd flat_map] in *. rewrite length_app.
        apply (fresh_range_join x n n1); assumption.
Qed.

Lemma occurrences_instantiate_all (x : nat) (l : list html) :
  forall next : nat,
    fresh_range x next (snd (instantiate_all next l))
                (length (flat_map (displayed_at x) (fst (instantiate_all next l)))).
Proof.
  induction l as [|y l IHl]; intros n.
  - cbn. unfold fresh_range. repeat split; lia.
  - cbn [instantiate_all]. pose proof (occurrences_instantiate x y n) as E.
    unfold occurrences in E.
    destruct (instantiate n y) as [y' n1]. specialize (IHl n1).
    destruct (instantiate_all n1 l) as [l' n2].
    cbn [fst snd flat_map] in *. rewrite length_app.
    apply (fresh_range_join x n n1); assumption.
Qed.

Lemma prepend_all_count (c : string) (frag : list html) (ts : list nat) :
  forall (doc : node) (next : nat),
    well_formed doc next ->
    Forall (fun t => (1 <= occurrences t doc)%nat) ts ->
    length (select_class c (fst (prepend_all ts frag doc next)))
    = (length (select_class c doc) + length ts * list_sum (map (count_class c) frag))%nat.
Proof.
  induction ts as [|t ts IH]; intros doc next Hwf Hts; [cbn; lia|].
  cbn [prepend_all length].
  inversion Hts as [|? ? Ht Hts']; subst.
  assert (Hocc : occurrences t doc = 1%nat) by (destruct (Hwf t); lia).
  pose proof (select_class_instantiate_all c frag next) as Hsel.
  pose proof (fun x => occurrences_instantiate_all x frag next) as Hids.
  destruct (instantiate_all next frag) as [nodes next']. cbn [fst snd] in Hsel, Hids.
  rewrite IH.
  - rewrite length_select_prepend, Hsel, Hocc. lia.
  - intros x. rewrite occurrences_prepend, Hocc.
    destruct (Hwf x) as [H1 H0]. destruct (Hids x) as (Hle & Hin & Hout).
    destruct (Nat.lt_ge_cases x next) as [Hx|Hx].
    + rewrite Hout by lia. split; lia.
    + rewrite (H0 Hx). destruct (Nat.lt_ge_cases x next') as [Hx'|Hx'].
      * rewrite Hin by lia. split; lia.
      * rewrite Hout by lia. split; lia.
  - apply Forall_forall. intros y Hy.
    rewrite occurrences_prepend.
    pose proof (proj1 (Forall_forall _ _) Hts' y Hy) as H1.
    eapply Nat.le_trans; [exact H1|apply Nat.le_add_r].
Qed.

(** X10.  On a page whose elements have distinct identities,
    [showNotification] adds to each [main .container] of the page as many
    elements of a class as the markup of the banner parses to: markup in the
    message adds its own elements, those of class [alert] included. *)
Theorem showNotification_banners_per_container
  (c : string) (this : this_value) (message : string) (type : option string) (p : page) :
  well_formed (document p) (next_id p) ->
  length (select_class c (document (showNotification this message type p)))
  = (length (select_class c (document p))
     + length (select_main_container false (document p))
       * list_sum (map (count_class c)
                       (parse_html (browser p)
                                   (alertHTML message (default "info"%string type)))))%nat.
Proof.
  intros Hwf. unfold showNotification.
  pose proof (prepend_all_count c
                (parse_html (browser p) (alertHTML message (default "info"%string type)))
                (select_main_container false (document p)) (document p) (next_id p) Hwf) as H.
  destruct (prepend_all _ _ _ _) as [doc next]. cbn [fst] in H.
  cbn [setTimeout document]. apply H.
  apply Forall_forall. intros t Ht. apply (select_main_container_occurs t _ false).
  apply list_elem_of_In. exact Ht.
Qed.

Lemma showNotification_banners_per_container_witness :
  length (select_class "alert"
            (document (showNotification ThisWindow "<div class='alert'>y</div>" None
                         with_flash)))
  = 3%nat.
Proof.
  rewrite (showNotification_banners_per_container "alert" ThisWindow
             "<div class='alert'>y</div>" None with_flash).
  - vm_compute. reflexivity.
  - intros x. unfold occurrences.
    destruct x as [|[|[|[|[|x]]]]]; cbn; split; lia.
Defined.

Section Overlap.

Variables (this : this_value) (due later until : Z) (other : task) (b : Browser).
Hypothesis Hthis : not_a_node this.
Hypothesis Hdue : runs_at b due <= until.
Hypothesis Hlater : until < runs_at b later.

Lemma take_earliest_before (el : nat) (els : list nat) :
  take_earliest (runs_at b) ((later, other) :: pending_fades this due (el :: els))
  = Some (due, fade_complete el this, (later, other) :: pending_fades this due els).
Proof.
  cbn [take_earliest]. rewrite (take_earliest_pending this due b el els).
  destruct (Z.ltb_spec (runs_at b due) (runs_at b later)); [reflexivity|lia].
Qed.

Lemma run_completions_before (els : list nat) :
  forall (fuel : nat) (doc : node) (nid : nat) (clk : Z),
    (length els < fuel)%nat ->
    run_until fuel until
      {| document := doc; next_id := nid; clock := clk;
         timers := (later, other) :: pending_fades this due els; browser := b |}
    = {| document := hide_all els doc; next_id := nid; clock := until;
         timers := [(later, other)]; browser := b |}.
Proof.
  induction els as [|el els IH]; intros fuel doc nid clk Hf.
  - destruct fuel as [|fuel]; [cbn in Hf; lia|].
    cbn [run_until timers pending_fades map take_earliest browser].
    destruct (Z.leb_spec (runs_at b later) until); [lia|reflexivity].
  - destruct fuel as [|fuel]; [cbn in Hf; lia|].
    cbn [run_until timers browser]. rewrite take_earliest_before.
    destruct (Z.leb_spec (runs_at b due) until); [|lia].
    cbn [run_task document next_id clock timers browser].
    rewrite remove_this_harmless by exact Hthis.
    rewrite IH by (cbn in Hf; lia). reflexivity.
Qed.

End Overlap.

(** X11.  A notification shown while the timer of an earlier one is pending is
    hidden by that earlier timer: once the fade of the first notification
    has completed, and before the browser runs the timer of the second one,
    every banner is hidden, the second one included, while the timer of the
    second notification is still pending. *)
Theorem second_notification_dismissed_early
  (this : this_value) (m1 m2 : string) (ty1 ty2 : option string) (p : page)
  (t until : Z) (fuel : nat) (el : nat) :
  let p1 := showNotification this m1 ty1 p in
  let p2 := showNotification this m2 ty2 (run_until 1 t p1) in
  not_a_node this -> timers p = [] ->
  never_early (browser p) ->
  clock p <= t < clock p + 5000 ->
  fade_done (browser p) (clock p) <= until < runs_at (browser p) (t + 5000) ->
  (length (select_class "alert" (document p2)) + 1 < fuel)%nat ->
  In el (select_class "alert" (document p2)) ->
  clock p2 = t
  /\ timers (run_until fuel until p2) = [(t + 5000, fadeOut_alerts this)]
  /\ displayed_at el (document (run_until fuel until p2))
     = map (fun _ => false) (displayed_at el (document p2)).
Proof.
  intros p1 p2 Hthis Ht Hlate Hclk Hu Hf Hin.
  unfold fade_done in Hu.
  destruct (showNotification_shape this m1 ty1 p) as (doc1 & next1 & E1).
  fold p1 in E1. rewrite Ht in E1. cbn [app] in E1.
  assert (E1' : run_until 1 t p1
                = {| document := doc1; next_id := next1; clock := t;
                     timers := [(clock p + 5000, fadeOut_alerts this)]; browser := browser p |}).
  { rewrite E1. cbn [run_until timers take_earliest browser].
    pose proof (Hlate (clock p + 5000)) as H1.
    destruct (Z.leb_spec (runs_at (browser p) (clock p + 5000)) t); [lia|reflexivity]. }
  destruct (showNotification_shape this m2 ty2 (run_until 1 t p1)) as (doc2 & next2 & E2).
  fold p2 in E2. rewrite E1' in E2. cbn [clock timers app browser] in E2.
  clearbody p1 p2. rewrite E2 in *. clear E1 E1' E2.
  cbn [document clock] in Hf, Hin |- *.
  split; [reflexivity|].
  destruct fuel as [|fuel]; [lia|].
  cbn [run_until timers take_earliest browser].
  remember (runs_at (browser p) (clock p + 5000)) as T eqn:ET.
  pose proof (Hlate (T + fade_duration)) as H1.
  assert (HT : T <= until) by (unfold fade_duration in H1, Hu; lia).
  destruct (Z.ltb_spec (runs_at (browser p) (t + 5000)) T); [lia|].
  rewrite <- ET.
  destruct (Z.leb_spec T until); [|lia].
  cbn [run_task document next_id clock timers app browser].
  pose proof (run_completions_before this (T + fade_duration) (t + 5000) until
                (fadeOut_alerts this) (browser p) Hthis (proj1 Hu) (proj2 Hu)
                (select_class "alert" doc2) fuel doc2 next2 T ltac:(lia)) as R.
  unfold pending_fades in R. rewrite R. cbn [timers document].
  split; [reflexivity|].
  apply displayed_at_hide_all. exact Hin.
Qed.

Lemma second_notification_dismissed_early_witness :
  clock (showNotification ThisWindow "second" None
           (run_until 1 3000 (showNotification ThisWindow "first" None one_container)))
  = 3000
  /\ timers
       (run_until 10 5500
          (showNotification ThisWindow "second" None
             (run_until 1 3000 (showNotification ThisWindow "first" None one_container))))
     = [(3000 + 5000, fadeOut_alerts ThisWindow)]
  /\ displayed_at 6
       (document
          (run_until 10 5500
             (showNotification ThisWindow "second" None
                (run_until 1 3000 (showNotification ThisWindow "first" None one_container)))))
     = map (fun _ => false)
         (displayed_at 6
            (document
               (showNotification ThisWindow "second" None
                  (run_until 1 3000
                     (showNotification ThisWindow "first" None one_container))))).
Proof.
  apply (second_notification_dismissed_early ThisWindow "first" "second" None None
           one_container 3000 5500 10 6).
  - exact I.
  - reflexivity.
  - intros d. cbn. lia.
  - vm_compute. split; [discriminate|reflexivity].
  - vm_compute. split; [discriminate|reflexivity].
  - vm_compute. lia.
  - vm_compute. left. reflexivity.
Defined.
